(** * The git-event-to-issue-tracker relay: [post-commit-hook.sh] and [git-hook.sh]

    A shallow embedding of the two shell hooks of the repository.  Each
    script is a function of the world it runs in (environment variables,
    what [git rev-parse] prints, which files exist, what the network
    answers) and yields the commands it issued ([echo], [curl]), in
    order, together with the way it ended.

    Text is a list of bytes, compared byte by byte (the C locale).  The
    text utilities of the pipelines ([echo], [grep -oE], [tail -n1],
    [head -n -1], command substitution, the integer test of [[ ]) are
    functions on it.  An [echo] is recorded with its argument as the shell
    expanded it; what [echo -e] makes of the escapes in it is not
    computed.  [grep -oE] is computed for the patterns the hooks build
    from ordinary characters, bracket ranges and [+]; a project key that
    holds operators of its own makes a pattern outside this fragment, and
    what [grep] prints for it is left to the world. *)

From Stdlib Require Import Ascii String DecimalString DecimalNat.
From Stdlib Require Import List Bool Arith Lia.
From Stdlib Require PrimFloat.
Import ListNotations.

(** ** Text *)

Module Text.

Definition str := list ascii.

Definition lit (s : string) : str := list_ascii_of_string s.

Definition nl : ascii := "010"%char.
Definition dquote : ascii := "034"%char.

Definition quoted (s : str) : str := dquote :: s ++ [dquote].

Definition is_empty (s : str) : bool :=
  match s with [] => true | _ :: _ => false end.

Fixpoint str_eqb (a b : str) : bool :=
  match a, b with
  | [], [] => true
  | x :: a', y :: b' => Ascii.eqb x y && str_eqb a' b'
  | _, _ => false
  end.

Fixpoint prefixb (p s : str) : bool :=
  match p, s with
  | [], _ => true
  | x :: p', y :: s' => Ascii.eqb x y && prefixb p' s'
  | _ :: _, [] => false
  end.

(** [includes needle hay]: [needle] occurs in [hay] as a substring. *)
Fixpoint includes (needle hay : str) : bool :=
  prefixb needle hay ||
  match hay with
  | [] => false
  | _ :: hay' => includes needle hay'
  end.

(** The fields of a text between newlines; a text always has at least one. *)
Fixpoint fields (s : str) : list str :=
  match s with
  | [] => [[]]
  | c :: s' =>
      if Ascii.eqb c nl then [] :: fields s'
      else match fields s' with
           | f :: fs => (c :: f) :: fs
           | [] => [[c]]
           end
  end.

(** The lines a line-oriented tool reads: a final newline ends the last
    line, it does not open an empty one. *)
Definition lines (s : str) : list str :=
  let fs := fields s in
  if is_empty (last fs []) then removelast fs else fs.

Definition unlines (ls : list str) : str :=
  concat (map (fun l => l ++ [nl]) ls).

(** A text without a newline in it, as a branch name is. *)
Definition one_line (s : str) : bool :=
  forallb (fun c => negb (Ascii.eqb c nl)) s.

(** The NUL byte, which no shell variable can hold. *)
Definition nul : ascii := "000"%char.

Definition no_nul (s : str) : bool :=
  forallb (fun c => negb (Ascii.eqb c nul)) s.

Definition drop_nul (s : str) : str :=
  filter (fun c => negb (Ascii.eqb c nul)) s.

Fixpoint strip_newlines (s : str) : str :=
  match s with
  | [] => []
  | c :: s' =>
      match strip_newlines s' with
      | [] => if Ascii.eqb c nl then [] else [c]
      | r => c :: r
      end
  end.

(** Command substitution [$(...)]: the output without the NUL bytes, which
    the shell drops, and without its trailing newlines. *)
Definition capture (s : str) : str := strip_newlines (drop_nul s).

(** [tail -n1] and [head -n -1]. *)
Definition tail_n1 (s : str) : str :=
  match lines s with
  | [] => []
  | l :: ls => unlines [last ls l]
  end.

Definition head_n_minus1 (s : str) : str := unlines (removelast (lines s)).

(** [${VAR:-word}]: [word] when the variable is unset or empty. *)
Definition or_default (v : option str) (word : str) : str :=
  match v with
  | Some (c :: s) => c :: s
  | _ => word
  end.

(** What the builtin [echo arg] writes.  An argument of the form
    [-] followed by letters among [n], [e], [E] is taken as options. *)
Definition echo_flag (c : ascii) : bool :=
  Ascii.eqb c "n" || Ascii.eqb c "e" || Ascii.eqb c "E".

Definition echo_option (arg : str) : bool :=
  match arg with
  | "-"%char :: c :: cs => forallb echo_flag (c :: cs)
  | _ => false
  end.

Definition echo_stdout (arg : str) : str :=
  if echo_option arg
  then (if existsb (Ascii.eqb "n") arg then [] else [nl])
  else arg ++ [nl].

(** Decimal numerals, as [printf] writes and as [[ -eq ] reads them. *)
Definition decimal (n : nat) : str :=
  lit (NilEmpty.string_of_uint (Nat.to_uint n)).

(** [%03ld] *)
Definition pad3 (n : nat) : str :=
  let d := decimal n in repeat "0"%char (3 - length d) ++ d.

Definition is_digit (c : ascii) : bool :=
  (nat_of_ascii "0" <=? nat_of_ascii c) && (nat_of_ascii c <=? nat_of_ascii "9").

Definition is_upper (c : ascii) : bool :=
  (nat_of_ascii "A" <=? nat_of_ascii c) && (nat_of_ascii c <=? nat_of_ascii "Z").

Definition number (s : str) : option nat :=
  match s with
  | [] => None
  | _ :: _ =>
      if forallb is_digit s
      then Some (fold_left (fun acc c => 10 * acc + (nat_of_ascii c - 48)) s 0)
      else None
  end.

(** [[ a -eq n ]]: status 0 when equal, 1 when not, 2 when [a] is not an
    integer. *)
Definition test_eq (a : str) (n : nat) : nat :=
  match number a with
  | Some v => if v =? n then 0 else 1
  | None => 2
  end.

End Text.

Import Text.

(** ** The fragment of POSIX extended regular expressions the hooks use *)

Module Ere.

(** One character position of a pattern: an ordinary character or a
    bracket expression with one range. *)
Inductive charset :=
| Chr (c : ascii)
| Range (lo hi : ascii).

Definition in_set (b : charset) (c : ascii) : bool :=
  match b with
  | Chr x => Ascii.eqb c x
  | Range lo hi =>
      (nat_of_ascii lo <=? nat_of_ascii c) && (nat_of_ascii c <=? nat_of_ascii hi)
  end.

(** A piece is a character position, alone or under [+]. *)
Inductive piece :=
| One (b : charset)
| Many (b : charset).

Definition ere := list piece.

(** When a text is a match of a pattern. *)
Inductive matches : ere -> str -> Prop :=
| matches_nil : matches [] []
| matches_one b p c t :
    in_set b c = true -> matches p t -> matches (One b :: p) (c :: t)
| matches_many_last b p c t :
    in_set b c = true -> matches p t -> matches (Many b :: p) (c :: t)
| matches_many_more b p c t :
    in_set b c = true -> matches (Many b :: p) t -> matches (Many b :: p) (c :: t).

(** All lengths [n] such that the first [n] characters of [s] match [p]. *)
Fixpoint ends (p : ere) (s : str) {struct s} : list nat :=
  match p with
  | [] => [0]
  | One b :: p' =>
      match s with
      | c :: s' => if in_set b c then map S (ends p' s') else []
      | [] => []
      end
  | Many b :: p' =>
      match s with
      | c :: s' => if in_set b c then map S (ends p' s' ++ ends p s') else []
      | [] => []
      end
  end.

(** The longest match that starts at the head of [s]. *)
Definition longest (p : ere) (s : str) : option nat :=
  match ends p s with
  | [] => None
  | n :: ns => Some (fold_right Nat.max n ns)
  end.

(** [grep -o] on one line: the non-empty leftmost-longest matches, left to
    right, the search resuming after each match.  [skip] counts the
    characters of the current match still to pass. *)
Fixpoint only_matching (p : ere) (s : str) (skip : nat) : list str :=
  match s with
  | [] => []
  | _ :: s' =>
      match skip with
      | S k => only_matching p s' k
      | 0 =>
          match longest p s with
          | Some (S n) => firstn (S n) s :: only_matching p s' n
          | _ => only_matching p s' 0
          end
      end
  end.

(** [grep -oE p]: every match of every input line, on a line of its own. *)
Definition grep_oE (p : ere) (input : str) : str :=
  unlines (flat_map (fun l => only_matching p l 0) (lines input)).

(** The patterns of the two hooks. *)
Definition literal (k : str) : ere := map (fun c => One (Chr c)) k.

(** ["${PROJECT_KEY}-[0-9]+"] for a key without operators. *)
Definition key_ere (k : str) : ere :=
  literal k ++ [One (Chr "-"); Many (Range "0" "9")].

(** ['[A-Z]+-[0-9]+'] *)
Definition any_key_ere : ere :=
  [Many (Range "A" "Z"); One (Chr "-"); Many (Range "0" "9")].

(** The characters that stand for themselves in an ERE: printable ASCII
    except the operators.  A key made of these, not starting with [-]
    (which [grep] would read as an option), is interpolated as a literal. *)
Definition ere_operator (c : ascii) : bool :=
  existsb (Ascii.eqb c) (lit "\.[]()*+?{}|^$").

Definition ordinary (c : ascii) : bool :=
  (32 <=? nat_of_ascii c) && (nat_of_ascii c <=? 126) && negb (ere_operator c).

Definition plain_key (k : str) : bool :=
  match k with
  | [] => false
  | c :: _ => negb (Ascii.eqb c "-") && forallb ordinary k
  end.

End Ere.

Import Ere.

(** ** The shell: commands issued and early exit *)

Module Sh.

(** A [curl] invocation, by its command line. *)
Record request := {
  silent : bool;                    (* -s *)
  write_out : option str;           (* -w FORMAT *)
  method : str;                     (* -X METHOD *)
  url : str;
  headers : list str;               (* -H LINE *)
  data : str;                       (* -d BODY *)
  connect_timeout : option nat;     (* --connect-timeout SECONDS *)
  max_time : option nat             (* --max-time SECONDS *)
}.

(** What a transfer comes to: [curl]'s own exit status (0 when the
    transfer completed, whatever the HTTP status, as [-f] is not given),
    the status of the last response received (0 when there was none) and
    the body written to standard output. *)
Record transfer := {
  curl_exit : nat;
  http_code : nat;
  body : str
}.

(** The [-w] format: [\n] is a newline, [%{http_code}] the status as
    [%03ld]; other characters stand for themselves. *)
Fixpoint expand_write_out (fuel : nat) (fmt : str) (t : transfer) : str :=
  match fuel with
  | 0 => []
  | S fuel' =>
      match fmt with
      | [] => []
      | c :: fmt' =>
          if prefixb (lit "\n") fmt
          then nl :: expand_write_out fuel' (skipn 2 fmt) t
          else if prefixb (lit "%{http_code}") fmt
          then pad3 (http_code t) ++ expand_write_out fuel' (skipn 12 fmt) t
          else c :: expand_write_out fuel' fmt' t
      end
  end.

Definition curl_stdout (r : request) (t : transfer) : str :=
  body t ++
  match write_out r with
  | Some fmt => expand_write_out (length fmt) fmt t
  | None => []
  end.

(** What a run leaves behind: the [echo]s (with [-e] or without, and the
    argument as expanded by the shell) and the [curl] calls, in order. *)
Inductive event :=
| Echo (escapes : bool) (arg : str)
| Curl (r : request).

(** A command either goes on with a value or ends the script. *)
Inductive step (A : Type) :=
| Next (a : A)
| Exit (status : nat).

Arguments Next {A} a.
Arguments Exit {A} status.

Definition sh (A : Type) : Type := list event * step A.

Definition ret {A} (a : A) : sh A := ([], Next a).

Definition bind {A B} (c : sh A) (k : A -> sh B) : sh B :=
  match c with
  | (t, Next a) => let (t', r) := k a in (t ++ t', r)
  | (t, Exit n) => (t, Exit n)
  end.

Definition exit {A} (n : nat) : sh A := ([], Exit n).

Definition emit (e : event) : sh unit := ([e], Next tt).

Definition echo (arg : str) : sh unit := emit (Echo false arg).
Definition echo_e (arg : str) : sh unit := emit (Echo true arg).

Definition when (b : bool) (c : sh unit) : sh unit :=
  if b then c else ret tt.

Definition trace {A} (c : sh A) : list event := fst c.

(** The exit status of a script; [None] when it runs off its end, where
    the status would be that of its last command. *)
Definition exit_status {A} (c : sh A) : option nat :=
  match snd c with
  | Exit n => Some n
  | Next _ => None
  end.

Definition requests (t : list event) : list request :=
  flat_map (fun e => match e with Curl r => [r] | Echo _ _ => [] end) t.

Definition echoed (t : list event) : list str :=
  flat_map (fun e => match e with Echo _ a => [a] | Curl _ => [] end) t.

End Sh.

Import Sh.

Notation "x <- c ;; k" := (bind c (fun x => k))
  (at level 61, c at next level, right associativity).
Notation "c ;; k" := (bind c (fun _ => k))
  (at level 61, right associativity).

(** ** The world a hook runs in *)

Record World := {
  (** the environment: [None] for a variable that is not set *)
  env : str -> option str;
  (** what [git rev-parse --abbrev-ref HEAD] writes to standard output *)
  git_rev_parse : str;
  (** [[ -f path ]] *)
  is_file : str -> bool;
  (** the transfer [curl] makes of a request *)
  network : request -> transfer;
  (** what [grep -oE pattern] writes on an input, for the patterns that
      hold operators of their own (a project key is pasted into the
      pattern as it is) *)
  grep_operators : str -> str -> str
}.

(** [RESPONSE=$(curl ...)]: the call is made, its output captured, its
    exit status left in [$?]. *)
Definition curl (w : World) (r : request) : sh (str * nat) :=
  emit (Curl r) ;;
  ret (capture (curl_stdout r (network w r)), curl_exit (network w r)).

(** The body both hooks send: the JSON text written out, the branch name
    and the action pasted in between the quotes as they are. *)
Definition payload (branch action : str) : str :=
  lit "{" ++ quoted (lit "branch_name") ++ lit ": " ++ quoted branch ++ lit ", "
  ++ quoted (lit "git_action") ++ lit ": " ++ quoted action ++ lit "}".

(** ** post-commit-hook.sh

    The definitions carry the names of the variables of the script. *)

Module PostCommit.

(** line 7: [API_BASE_URL="${SCRUM_API_URL:-http://localhost:8000/api/v1}"] *)
Definition API_BASE_URL (w : World) : str :=
  or_default (env w (lit "SCRUM_API_URL")) (lit "http://localhost:8000/api/v1").

(** line 8: [PROJECT_KEY="${SCRUM_PROJECT_KEY:-SCRUM}"] *)
Definition PROJECT_KEY (w : World) : str :=
  or_default (env w (lit "SCRUM_PROJECT_KEY")) (lit "SCRUM").

(** line 11: [BRANCH_NAME=$(git rev-parse --abbrev-ref HEAD)] *)
Definition BRANCH_NAME (w : World) : str := capture (git_rev_parse w).

(** line 14: detached HEAD, or in the middle of a merge or a rebase. *)
Definition ineligible (w : World) : bool :=
  str_eqb (BRANCH_NAME w) (lit "HEAD")
  || is_file w (lit ".git/MERGE_HEAD")
  || is_file w (lit ".git/rebase-apply/applying").

(** line 20: [grep -oE "${PROJECT_KEY}-[0-9]+"] *)
Definition grep_key (w : World) (key input : str) : str :=
  if plain_key key
  then grep_oE (key_ere key) input
  else grep_operators w (key ++ lit "-[0-9]+") input.

(** line 20: [JIRA_KEY=$(echo "$BRANCH_NAME" | grep -oE ...)] *)
Definition JIRA_KEY (w : World) : str :=
  capture (grep_key w (PROJECT_KEY w) (echo_stdout (BRANCH_NAME w))).

(** lines 30-34: the [curl] command *)
Definition delivery (w : World) : request := {|
  silent := true;
  write_out := Some (lit "\n%{http_code}");
  method := lit "POST";
  url := API_BASE_URL w ++ lit "/git-hooks/update-from-branch";
  headers := [lit "Content-Type: application/json"];
  data := payload (BRANCH_NAME w) (lit "commit");
  connect_timeout := Some 5;
  max_time := Some 10
|}.

(** lines 14-47 *)
Definition script (w : World) : sh unit :=
  when (ineligible w) (exit 0) ;;
  when (is_empty (JIRA_KEY w)) (exit 0) ;;
  echo (lit "Git Hook: Updating Jira card " ++ JIRA_KEY w
        ++ lit " for branch '" ++ BRANCH_NAME w ++ lit "'") ;;
  out <- curl w (delivery w) ;;
  let RESPONSE := fst out in
  let HTTP_CODE := capture (tail_n1 (echo_stdout RESPONSE)) in
  let RESPONSE_BODY := capture (head_n_minus1 (echo_stdout RESPONSE)) in
  (if test_eq HTTP_CODE 200 =? 0
   then echo (lit "✓ Successfully updated Jira card " ++ JIRA_KEY w)
   else
     echo (lit "✗ Failed to update Jira card " ++ JIRA_KEY w
           ++ lit " (HTTP " ++ HTTP_CODE ++ lit ")") ;;
     echo (lit "Response: " ++ RESPONSE_BODY)) ;;
  exit 0.

End PostCommit.

(** ** git-hook.sh *)

Module GitHook.

(** lines 7-9 and 12-15: the settings are constants of the script *)
Definition API_BASE_URL : str := lit "http://localhost:8000/api/v1".

Definition BRANCH_NAME (w : World) : str := capture (git_rev_parse w).

Definition GIT_ACTION : str := lit "push".

Definition RED : str := lit "\033[0;31m".
Definition GREEN : str := lit "\033[0;32m".
Definition YELLOW : str := lit "\033[1;33m".
Definition NC : str := lit "\033[0m".

(** line 21: [JIRA_KEY=$(echo "$BRANCH_NAME" | grep -oE '[A-Z]+-[0-9]+')] *)
Definition JIRA_KEY (w : World) : str :=
  capture (grep_oE any_key_ere (echo_stdout (BRANCH_NAME w))).

(** lines 33-36: the [curl] command *)
Definition delivery (w : World) : request := {|
  silent := true;
  write_out := None;
  method := lit "POST";
  url := API_BASE_URL ++ lit "/git-hooks/update-from-branch";
  headers := [lit "Content-Type: application/json"];
  data := payload (BRANCH_NAME w) GIT_ACTION;
  connect_timeout := None;
  max_time := None
|}.

(** lines 17-47 *)
Definition script (w : World) : sh unit :=
  echo_e (YELLOW ++ lit "Git Hook: Updating Jira card for branch '"
          ++ BRANCH_NAME w ++ lit "'" ++ NC) ;;
  when (is_empty (JIRA_KEY w))
    (echo_e (YELLOW ++ lit "No Jira key found in branch name '"
             ++ BRANCH_NAME w ++ lit "'" ++ NC) ;;
     echo (lit "Branch name should contain a Jira key like SCRUM-25") ;;
     echo (lit "Examples: feature/SCRUM-25, bugfix/SCRUM-123, SCRUM-456") ;;
     exit 0) ;;
  echo_e (YELLOW ++ lit "Found Jira key: " ++ JIRA_KEY w ++ NC) ;;
  out <- curl w (delivery w) ;;
  let RESPONSE := fst out in
  (if snd out =? 0
   then
     echo_e (GREEN ++ lit "Successfully updated Jira card " ++ JIRA_KEY w ++ NC) ;;
     echo (lit "Response: " ++ RESPONSE)
   else
     echo_e (RED ++ lit "Failed to update Jira card " ++ JIRA_KEY w ++ NC) ;;
     echo (lit "Make sure the backend server is running on " ++ API_BASE_URL)) ;;
  exit 0.

End GitHook.

(** ** The issue key, in the words of the specification *)

(** A token [PREFIX "-" DIGITS] for a given prefix. *)
Definition key_token (prefix t : str) : Prop :=
  exists ds, ds <> [] /\ forallb is_digit ds = true /\
             t = prefix ++ "-"%char :: ds.

(** The same, the prefix being any run of uppercase letters. *)
Definition any_key_token (t : str) : Prop :=
  exists up, up <> [] /\ forallb is_upper up = true /\ key_token up t.

(** The branch name [b] holds no token. *)
Definition no_token (token : str -> Prop) (b : str) : Prop :=
  forall pre t post, b = pre ++ t ++ post -> ~ token t.

(** [t], between [pre] and [post], is the one token of [b]: whatever
    token occurs in [b] lies within it. *)
Definition only_token (token : str -> Prop) (b pre t post : str) : Prop :=
  b = pre ++ t ++ post /\ token t /\
  forall pre' t' post',
    b = pre' ++ t' ++ post' -> token t' ->
    length pre <= length pre' /\
    length pre' + length t' <= length pre + length t.

(** [post] does not go on with a digit. *)
Definition no_digit_ahead (post : str) : Prop :=
  match post with
  | [] => True
  | c :: _ => is_digit c = false
  end.

(** Whether every non-empty match of [p] in [b] lies between the
    positions [lo] and [hi]: the check that runs on a given branch name. *)
Definition matches_within (p : ere) (b : str) (lo hi : nat) : bool :=
  forallb
    (fun i =>
       forallb (fun n => (n =? 0) || ((lo <=? i) && (i + n <=? hi)))
               (ends p (skipn i b)))
    (seq 0 (S (length b))).

(** Whether [p] has no non-empty match anywhere in [b]. *)
Definition no_match (p : ere) (b : str) : bool :=
  forallb (fun i => forallb (fun n => n =? 0) (ends p (skipn i b)))
          (seq 0 (S (length b))).

(** The same world with another environment. *)
Definition with_env (w : World) (e : str -> option str) : World := {|
  env := e;
  git_rev_parse := git_rev_parse w;
  is_file := is_file w;
  network := network w;
  grep_operators := grep_operators w
|}.

(** ** The request body, read as the tracker reads it

    A reader of JSON texts (RFC 8259) for the objects whose members are
    all strings, which is what the specification has the body be.  The
    text is a list of bytes; white space is allowed where the grammar
    allows it; a string may hold any byte from 32 up other than the quote
    and the backslash, and the escapes of the grammar.  A name and a value
    are given as they are written between their quotes, escapes left in
    place: they are the strings themselves when they hold no backslash.
    Any other text reads as [None]. *)

Module Json.

Definition backslash : ascii := "092"%char.

(** Space, tab, line feed and carriage return. *)
Definition is_ws (c : ascii) : bool :=
  Ascii.eqb c " " || Ascii.eqb c "009" || Ascii.eqb c nl || Ascii.eqb c "013".

Definition is_hex (c : ascii) : bool :=
  is_digit c
  || ((nat_of_ascii "a" <=? nat_of_ascii c) && (nat_of_ascii c <=? nat_of_ascii "f"))
  || ((nat_of_ascii "A" <=? nat_of_ascii c) && (nat_of_ascii c <=? nat_of_ascii "F")).

(** The characters that may follow a backslash, [u] apart. *)
Definition is_escape (c : ascii) : bool :=
  Ascii.eqb c dquote || Ascii.eqb c backslash || Ascii.eqb c "/"
  || Ascii.eqb c "b" || Ascii.eqb c "f" || Ascii.eqb c "n"
  || Ascii.eqb c "r" || Ascii.eqb c "t".

(** A character that stands for itself inside a string. *)
Definition unescaped (c : ascii) : bool :=
  negb (Ascii.eqb c dquote) && negb (Ascii.eqb c backslash)
  && (32 <=? nat_of_ascii c).

Definition plain (s : str) : bool := forallb unescaped s.

Fixpoint skip_ws (s : str) : str :=
  match s with
  | c :: s' => if is_ws c then skip_ws s' else s
  | [] => []
  end.

Definition keep (written : str) (r : option (str * str)) : option (str * str) :=
  match r with
  | Some (s, rest) => Some (written ++ s, rest)
  | None => None
  end.

(** A string from after its opening quote: what is written up to the
    closing quote, and the text after it. *)
Fixpoint string_rest (s : str) : option (str * str) :=
  match s with
  | [] => None
  | c :: s1 =>
      if Ascii.eqb c dquote then Some ([], s1)
      else if Ascii.eqb c backslash then
        match s1 with
        | e :: s2 =>
            if Ascii.eqb e "u" then
              match s2 with
              | h1 :: h2 :: h3 :: h4 :: s3 =>
                  if is_hex h1 && is_hex h2 && is_hex h3 && is_hex h4
                  then keep [c; e; h1; h2; h3; h4] (string_rest s3)
                  else None
              | _ => None
              end
            else if is_escape e then keep [c; e] (string_rest s2)
            else None
        | [] => None
        end
      else if 32 <=? nat_of_ascii c then keep [c] (string_rest s1)
      else None
  end.

(** A string, after white space. *)
Definition string_at (s : str) : option (str * str) :=
  match skip_ws s with
  | c :: s' => if Ascii.eqb c dquote then string_rest s' else None
  | [] => None
  end.

(** The character [c], after white space. *)
Definition expect (c : ascii) (s : str) : option str :=
  match skip_ws s with
  | x :: s' => if Ascii.eqb x c then Some s' else None
  | [] => None
  end.

(** The members of an object from after its opening brace, to the end of
    the text. *)
Fixpoint members (fuel : nat) (s : str) : option (list (str * str)) :=
  match fuel with
  | 0 => None
  | S fuel' =>
      match string_at s with
      | None => None
      | Some (name, s1) =>
          match expect ":" s1 with
          | None => None
          | Some s2 =>
              match string_at s2 with
              | None => None
              | Some (value, s3) =>
                  match skip_ws s3 with
                  | c :: s4 =>
                      if Ascii.eqb c "," then
                        option_map (cons (name, value)) (members fuel' s4)
                      else if Ascii.eqb c "}" then
                        if is_empty (skip_ws s4) then Some [(name, value)] else None
                      else None
                  | [] => None
                  end
              end
          end
      end
  end.

Definition object (text : str) : option (list (str * str)) :=
  match expect "{" text with
  | None => None
  | Some s =>
      match expect "}" s with
      | Some rest => if is_empty (skip_ws rest) then Some [] else None
      | None => members (length text) s
      end
  end.

End Json.

(** ** The lifecycle point of a run

    Git tells a hook where it stands by the name it runs it under and by
    its arguments and standard input.  Neither script reads any of them:
    the run of a hook at a lifecycle point is the run of the script. *)

Inductive lifecycle :=
| AtCommit
| AtPush.

Definition run_at (point : lifecycle) (hook : World -> sh unit) (w : World)
  : sh unit :=
  hook w.

(** The action the specification gives to a lifecycle point. *)
Definition action_of (point : lifecycle) : str :=
  match point with
  | AtCommit => lit "commit"
  | AtPush => lit "push"
  end.

(** ** Worlds to run the hooks in *)

Definition no_env : str -> option str := fun _ => None.

Definition no_files : str -> bool := fun _ => false.

Definition setenv (name value : string) (e : str -> option str)
  : str -> option str :=
  fun v => if str_eqb v (lit name) then Some (lit value) else e v.

(** A repository on [branch]; [git rev-parse] ends its line with a newline.
    No pattern with operators is in play in these worlds. *)
Definition on_branch (branch : string) (e : str -> option str)
    (files : str -> bool) (t : transfer) : World := {|
  env := e;
  git_rev_parse := lit branch ++ [nl];
  is_file := files;
  network := fun _ => t;
  grep_operators := fun _ _ => []
|}.

Definition http (status : nat) (text : string) : transfer :=
  {| curl_exit := 0; http_code := status; body := lit text |}.

(** [curl] exit status 7: the connection was refused. *)
Definition refused : transfer :=
  {| curl_exit := 7; http_code := 0; body := [] |}.

(** A merge is under way on a branch that names an issue. *)
Definition merging : World :=
  on_branch "feature/SCRUM-25" no_env
    (fun f => str_eqb f (lit ".git/MERGE_HEAD")) (http 200 "{}").

(** The tracker answers with an error. *)
Definition tracker_error : World :=
  on_branch "feature/SCRUM-25" no_env no_files
    (http 500 "Internal Server Error").

(** The tracker cannot be reached. *)
Definition tracker_down : World :=
  on_branch "feature/SCRUM-25" no_env no_files refused.

(** No branch is checked out. *)
Definition detached : World :=
  on_branch "HEAD" no_env no_files (http 200 "{}").

(** A branch that names two issues. *)
Definition two_keys : World :=
  on_branch "feature/SCRUM-12-follows-SCRUM-7" no_env no_files (http 200 "{}").

(** Branches of other projects, no prefix configured. *)
Definition other_project : World :=
  on_branch "feature/ABC-12" no_env no_files (http 200 "{}").

Definition another_project : World :=
  on_branch "bugfix/PROJ-7" no_env no_files (http 200 "{}").

(** The examples of the specification. *)
Definition fix_branch : World :=
  on_branch "feature/SCRUM-25-fix" no_env no_files (http 200 "{}").

Definition cleanup_branch : World :=
  on_branch "chore/cleanup" no_env no_files (http 200 "{}").

Definition longer_run : World :=
  on_branch "MYSCRUM-25" (setenv "SCRUM_PROJECT_KEY" "SCRUM" no_env)
    no_files (http 200 "{}").

(** A branch with a double quote in its name, which git accepts. *)
Definition quoted_branch : World := {|
  env := no_env;
  git_rev_parse := lit "SCRUM-1" ++ dquote :: lit "x" ++ [nl];
  is_file := no_files;
  network := fun _ => http 200 "{}";
  grep_operators := fun _ _ => []
|}.

(** The tracker answers an error whose body holds a NUL byte. *)
Definition nul_in_body : World := {|
  env := no_env;
  git_rev_parse := lit "feature/SCRUM-25" ++ [nl];
  is_file := no_files;
  network := fun _ =>
    {| curl_exit := 0; http_code := 500;
       body := lit "a" ++ nul :: lit "b" ++ [nl] |};
  grep_operators := fun _ _ => []
|}.

(** ** setup-git-hooks.sh

    The installer of [post-commit-hook.sh].  It runs under [set -e]: a
    command that fails ends the script with the status of that command.
    What the commands do to the files is theirs; the script is followed
    through the lines it writes, the commands it runs and their exit
    statuses. *)

Module Setup.

Inductive command :=
| Mkdir_p (path : str)
| Cp (source target : str)
| Chmod (mode path : str).

(** What a run consists of, in order. *)
Inductive action :=
| Say (arg : str)
| Run (c : command).

Record Host := {
  (** [[ -d path ]] *)
  is_dir : str -> bool;
  (** the exit status of a command, when the script runs it *)
  status : command -> nat
}.

Definition proc (A : Type) : Type := list action * step A.

Definition and_then {A B} (c : proc A) (k : A -> proc B) : proc B :=
  match c with
  | (t, Next a) => let (t', r) := k a in (t ++ t', r)
  | (t, Exit n) => (t, Exit n)
  end.

Local Notation "c >> k" := (and_then c (fun _ => k))
  (at level 61, right associativity).

Definition say (arg : str) : proc unit := ([Say arg], Next tt).

Definition stop {A} (n : nat) : proc A := ([], Exit n).

(** A command under [set -e]. *)
Definition run (h : Host) (c : command) : proc unit :=
  ([Run c], if status h c =? 0 then Next tt else Exit (status h c)).

Definition hooks_dir : command := Mkdir_p (lit ".git/hooks").
Definition copy_hook : command :=
  Cp (lit "post-commit-hook.sh") (lit ".git/hooks/post-commit").
Definition make_executable : command :=
  Chmod (lit "+x") (lit ".git/hooks/post-commit").

(** lines 7-37 *)
Definition script (h : Host) : proc unit :=
  say (lit "Setting up Git hooks for Jira integration...") >>
  (if negb (is_dir h (lit ".git"))
   then
     say (lit "Error: Not in a git repository. Please run this script from the root of your git repository.") >>
     stop 1
   else ([], Next tt)) >>
  run h hooks_dir >>
  run h copy_hook >>
  run h make_executable >>
  say (lit "✓ Git hook installed successfully!") >>
  say [] >>
  say (lit "The hook will now automatically update Jira card status when you commit.") >>
  say (lit "Make sure your branch names contain Jira keys like:") >>
  say (lit "  - feature/SCRUM-25") >>
  say (lit "  - bugfix/SCRUM-123") >>
  say (lit "  - SCRUM-456") >>
  say [] >>
  say (lit "To test the hook manually, run:") >>
  say (lit "  ./git-hook.sh") >>
  say [] >>
  say (lit "To configure the API URL, set the environment variable:") >>
  say (lit "  export SCRUM_API_URL=http://your-server:8000/api/v1") >>
  say (lit "  export SCRUM_PROJECT_KEY=SCRUM").

Definition actions (c : proc unit) : list action := fst c.

Definition commands (c : proc unit) : list command :=
  flat_map (fun a => match a with Run x => [x] | Say _ => [] end) (fst c).

Definition said (c : proc unit) : list str :=
  flat_map (fun a => match a with Say x => [x] | Run _ => [] end) (fst c).

(** The exit status: that of [exit], or of the last command when the
    script runs off its end, which is an [echo] here. *)
Definition exit_code (c : proc unit) : nat :=
  match snd c with
  | Exit n => n
  | Next _ => 0
  end.

(** Hosts to run the installer on. *)
Definition host (repository : bool) (mkdir cp chmod : nat) : Host := {|
  is_dir := fun path => repository && str_eqb path (lit ".git");
  status := fun c =>
    match c with
    | Mkdir_p _ => mkdir
    | Cp _ _ => cp
    | Chmod _ _ => chmod
    end
|}.

End Setup.

(** ** The front end: values, promises and the calls of the API layer

    The API layer ([lib/api.ts]) wraps the HTTP client: each function
    makes one call and shapes what comes back.  A value is what the
    client hands over as [r.data]; a call is settled once, fulfilled with
    that value or rejected. *)

Module Js.

Import PrimFloat.

#[warnings="-register-all"] Inductive value :=
| Undefined
| Null
| Boolean (b : bool)
| Number (x : float)
| String (s : str)
| Array (items : list value)
| Object (fields : list (str * value)).

(** A number counts as true unless it is 0, -0 or NaN. *)
Definition number_truthy (x : float) : bool :=
  negb (eqb x zero || negb (eqb x x)).

Definition truthy (v : value) : bool :=
  match v with
  | Undefined | Null => false
  | Boolean b => b
  | Number x => number_truthy x
  | String s => negb (is_empty s)
  | Array _ | Object _ => true
  end.

(** [Array.isArray(v)] *)
Definition isArray (v : value) : bool :=
  match v with
  | Array _ => true
  | _ => false
  end.

Fixpoint lookup (fields : list (str * value)) (name : str) : value :=
  match fields with
  | [] => Undefined
  | (k, v) :: rest => if str_eqb k name then v else lookup rest name
  end.

(** What evaluating an expression comes to: its result, or the value it
    throws. *)
Inductive outcome (A : Type) :=
| Return (a : A)
| Throw (e : value).

Arguments Return {A} a.
Arguments Throw {A} e.

Definition try_ {A B} (c : outcome A) (k : A -> outcome B) : outcome B :=
  match c with
  | Return a => k a
  | Throw e => Throw e
  end.

Definition type_error : value := Object [(lit "name", String (lit "TypeError"))].

(** [v.name], for a name that only an object of its own can carry.
    Reading a property of [null] or of [undefined] throws a [TypeError]. *)
Definition field (v : value) (name : str) : outcome value :=
  match v with
  | Undefined | Null => Throw type_error
  | Object fields => Return (lookup fields name)
  | Boolean _ | Number _ | String _ | Array _ => Return Undefined
  end.

(** [a ?? b] *)
Definition nullish (a b : value) : value :=
  match a with
  | Undefined | Null => b
  | _ => a
  end.

Inductive settled :=
| Fulfilled (v : value)
| Rejected (reason : value).

(** [.then(f)]: what [f] throws rejects the promise.  [.catch(g)], for a
    callback that does not throw. *)
Definition then_ (f : value -> outcome value) (p : settled) : settled :=
  match p with
  | Fulfilled v =>
      match f v with
      | Return x => Fulfilled x
      | Throw e => Rejected e
      end
  | Rejected e => Rejected e
  end.

Definition catch_ (g : value -> value) (p : settled) : settled :=
  match p with
  | Fulfilled v => Fulfilled v
  | Rejected e => Fulfilled (g e)
  end.

(** A call of the HTTP client, and the server that settles it with the
    data of its response. *)
Record call := {
  verb : str;
  path : str;
  params : value;
  body : value
}.

Definition Server : Type := call -> settled.

(** [api.get(path, { params })] and [api.post(path, body, { params })] *)
Definition get (path : str) (params : value) : call :=
  {| verb := lit "GET"; path := path; params := params; body := Undefined |}.

Definition post (path : str) (body params : value) : call :=
  {| verb := lit "POST"; path := path; params := params; body := body |}.

(** The callback of the list calls: the data when it is an array, its
    [items] when they are, and the empty array otherwise. *)
Definition array_or_items (data : value) : outcome value :=
  if isArray data then Return data
  else if truthy data
       then try_ (field data (lit "items")) (fun items =>
            if isArray items then Return items else Return (Array []))
       else Return (Array []).

Definition default_limit : float := 25%float.
Definition fifty : float := 50%float.

End Js.

(** [GitAPI] of [lib/api.ts] *)
Module GitAPI.

Import Js.

Definition dbCommits (server : Server) (params : value) : settled :=
  catch_ (fun _ => Array [])
         (then_ array_or_items (server (get (lit "/git/commits") params))).

Definition dbPullRequests (server : Server) (params : value) : settled :=
  catch_ (fun _ => Array [])
         (then_ array_or_items (server (get (lit "/git/pull-requests") params))).

End GitAPI.

(** [JiraAPI] of [lib/api.ts] *)
Module JiraAPI.

Import Js.

(** The one list call without a [.catch]. *)
Definition listTickets (server : Server) (params : value) : settled :=
  then_ array_or_items (server (get (lit "/jira/tickets") params)).

(** The call [createTicket] makes.  The parameters are read off the
    payload before the call: with a payload that is [null] or [undefined]
    the first of them throws, and no call is made. *)
Definition createTicket_call (payload : value) : outcome call :=
  try_ (field payload (lit "title")) (fun title =>
  try_ (field payload (lit "description")) (fun description =>
  try_ (field payload (lit "assignee")) (fun assignee =>
  try_ (field payload (lit "project_key")) (fun project_key =>
  try_ (field payload (lit "labels")) (fun labels =>
  try_ (field payload (lit "story_points")) (fun story_points =>
  try_ (field payload (lit "priority")) (fun priority =>
  try_ (field payload (lit "ticket_type")) (fun ticket_type =>
  Return
    (post (lit "/jira/tickets") Null
       (Object
          [ (lit "title", title);
            (lit "description", nullish description (String []));
            (lit "assignee", assignee);
            (lit "project_key", nullish project_key (String (lit "SCRUM")));
            (lit "labels", labels);
            (lit "story_points", story_points);
            (lit "priority", priority);
            (lit "ticket_type", ticket_type) ])))))))))).

Definition createTicket (server : Server) (payload : value) : outcome settled :=
  try_ (createTicket_call payload) (fun c =>
  Return (catch_ (fun _ => Null) (then_ (fun data => Return data) (server c)))).

End JiraAPI.

(** ** The Jira page: its filters and the address bar *)

Module JiraPage.

Import Js.

Record filters := {
  project_key : str;
  assignee : str;
  status : str;
  limit : PrimFloat.float
}.

(** The search parameters of the address: what [setSearchParams] is given
    and what [searchParams.get] reads, [None] standing for [null]. *)
Definition search_params : Type := list (str * str).

Fixpoint search (ps : search_params) (name : str) : option str :=
  match ps with
  | [] => None
  | (k, v) :: rest => if str_eqb k name then Some v else search rest name
  end.

(** [Number(text)] and [String(number)] of the language. *)
Record Conversions := {
  to_number : str -> PrimFloat.float;
  to_text : PrimFloat.float -> str
}.

(** [searchParams.get(name) || ''] *)
Definition or_empty (v : option str) : str :=
  match v with
  | Some s => s
  | None => []
  end.

(** lines 12-17: the filters a page starts with *)
Definition initialFilters (lib : Conversions) (ps : search_params) : filters := {|
  project_key := or_empty (search ps (lit "project_key"));
  assignee := or_empty (search ps (lit "assignee"));
  status := or_empty (search ps (lit "status"));
  limit := match search ps (lit "limit") with
           | Some (c :: s) => to_number lib (c :: s)
           | _ => default_limit
           end
|}.

Definition entry (name value : str) : search_params :=
  if is_empty value then [] else [(name, value)].

(** lines 25-41: the filters applied and the parameters put in the address *)
Definition applyFilters (lib : Conversions)
    (filterProject filterAssignee filterStatus : str) (appliedFilters : filters)
  : filters * search_params :=
  let newFilters := {|
    project_key := filterProject;
    assignee := filterAssignee;
    status := filterStatus;
    limit := limit appliedFilters
  |} in
  (newFilters,
   entry (lit "project_key") (project_key newFilters)
   ++ entry (lit "assignee") (assignee newFilters)
   ++ entry (lit "status") (status newFilters)
   ++ (if number_truthy (limit newFilters)
          && negb (PrimFloat.eqb (limit newFilters) default_limit)
       then [(lit "limit", to_text lib (limit newFilters))]
       else [])).

(** lines 173-183: Clear Filters *)
Definition clearFilters : filters * search_params :=
  ({| project_key := []; assignee := []; status := []; limit := default_limit |},
   []).

(** line 59: the ticket the page asks for *)
Definition create_payload (title description projectKey priority ticketType : str)
  : value :=
  Object [ (lit "title", String title);
           (lit "description", String description);
           (lit "project_key", String projectKey);
           (lit "priority", String priority);
           (lit "ticket_type", String ticketType) ].

(** Conversions to try the page with. *)
Definition fifty_only : Conversions :=
  {| to_number := fun _ => fifty; to_text := fun _ => lit "50" |}.

End JiraPage.

(** * Properties *)

(** ** Text utilities *)

Section TextFacts.

Lemma fields_nonempty (s : str) : fields s <> [].
Proof.
  induction s as [|c s IH]; simpl; [discriminate|].
  destruct (Ascii.eqb c nl); [discriminate|].
  destruct (fields s); discriminate.
Qed.

Lemma fields_app_nl (a b : str) : fields (a ++ nl :: b) = fields a ++ fields b.
Proof.
  induction a as [|c a IH]; simpl.
  - reflexivity.
  - rewrite IH. destruct (Ascii.eqb c nl); [reflexivity|].
    pose proof (fields_nonempty a) as Ha.
    destruct (fields a); [contradiction|reflexivity].
Qed.

Lemma fields_one_line (s : str) : one_line s = true -> fields s = [s].
Proof.
  induction s as [|c s IH]; simpl; intros H; [reflexivity|].
  apply andb_true_iff in H. destruct H as [Hc Hs].
  apply negb_true_iff in Hc. rewrite Hc, (IH Hs). reflexivity.
Qed.

Lemma unlines_fields (s : str) : unlines (fields s) = s ++ [nl].
Proof.
  unfold unlines. induction s as [|c s IH]; simpl; [reflexivity|].
  destruct (Ascii.eqb c nl) eqn:E.
  - apply Ascii.eqb_eq in E. subst c. simpl. now rewrite IH.
  - pose proof (fields_nonempty s) as Hs.
    destruct (fields s) as [|f fs]; [contradiction|].
    simpl in *. now rewrite IH.
Qed.

Lemma last_cons_nonempty {A} (x : A) (l : list A) (d : A) :
  l <> [] -> last (x :: l) d = last l d.
Proof. destruct l; [contradiction|reflexivity]. Qed.

Lemma lines_cons (m x : str) :
  one_line m = true -> lines (m ++ nl :: x) = m :: lines x.
Proof.
  intros Hm. unfold lines. rewrite fields_app_nl, (fields_one_line m Hm).
  pose proof (fields_nonempty x) as Hx. simpl ([m] ++ fields x).
  rewrite (last_cons_nonempty m (fields x) [] Hx).
  destruct (is_empty (last (fields x) [])); [|reflexivity].
  simpl. destruct (fields x); [contradiction|reflexivity].
Qed.

Lemma lines_one_line (s : str) : one_line s = true -> lines (s ++ [nl]) = [s].
Proof. intros H. now rewrite (lines_cons s [] H). Qed.

Lemma strip_app_keep (a b : str) :
  strip_newlines b <> [] -> strip_newlines (a ++ b) = a ++ strip_newlines b.
Proof.
  intros Hb. induction a as [|c a IH]; simpl; [reflexivity|].
  rewrite IH. destruct (a ++ strip_newlines b) eqn:E; [|reflexivity].
  apply app_eq_nil in E. tauto.
Qed.

Lemma strip_app_drop (a b : str) :
  strip_newlines b = [] -> strip_newlines (a ++ b) = strip_newlines a.
Proof.
  intros Hb. induction a as [|c a IH]; simpl; [assumption|].
  now rewrite IH.
Qed.

Lemma strip_end (s : str) (c : ascii) :
  c <> nl -> strip_newlines (s ++ [c]) = s ++ [c].
Proof.
  intros Hc.
  assert (E : strip_newlines [c] = [c]).
  { simpl. destruct (Ascii.eqb c nl) eqn:E; [|reflexivity].
    apply Ascii.eqb_eq in E. contradiction. }
  rewrite strip_app_keep; rewrite E; [reflexivity|discriminate].
Qed.

Lemma strip_one_line (s : str) : one_line s = true -> strip_newlines s = s.
Proof.
  destruct (rev s) as [|c r] eqn:E.
  - intros _. apply (f_equal (@rev _)) in E. rewrite rev_involutive in E. now subst.
  - apply (f_equal (@rev _)) in E. rewrite rev_involutive in E. simpl in E. subst s.
    intros H. apply strip_end. intros ->.
    unfold one_line in H. rewrite forallb_app in H. simpl in H.
    rewrite andb_false_r in H. discriminate.
Qed.

Lemma strip_incl (s : str) (c : ascii) : In c (strip_newlines s) -> In c s.
Proof.
  induction s as [|x s IH]; simpl; [tauto|].
  destruct (strip_newlines s) as [|y r].
  - destruct (Ascii.eqb x nl); simpl; tauto.
  - simpl. intros [H|H]; [now left|right; apply IH; exact H].
Qed.

(** ** NUL bytes *)

Lemma no_nul_app (a b : str) : no_nul (a ++ b) = no_nul a && no_nul b.
Proof. apply forallb_app. Qed.

Lemma no_nul_firstn (n : nat) (s : str) :
  no_nul s = true -> no_nul (firstn n s) = true.
Proof.
  intros H. rewrite <- (firstn_skipn n s), no_nul_app in H.
  now apply andb_true_iff in H.
Qed.

Lemma no_nul_skipn (n : nat) (s : str) :
  no_nul s = true -> no_nul (skipn n s) = true.
Proof.
  intros H. rewrite <- (firstn_skipn n s), no_nul_app in H.
  now apply andb_true_iff in H.
Qed.

Lemma drop_nul_app (a b : str) : drop_nul (a ++ b) = drop_nul a ++ drop_nul b.
Proof. apply filter_app. Qed.

Lemma drop_nul_id (s : str) : no_nul s = true -> drop_nul s = s.
Proof.
  induction s as [|c s IH]; simpl; [reflexivity|].
  intros H. apply andb_true_iff in H. destruct H as [Hc Hs].
  rewrite Hc, (IH Hs). reflexivity.
Qed.

Lemma drop_nul_no_nul (s : str) : no_nul (drop_nul s) = true.
Proof.
  induction s as [|c s IH]; simpl; [reflexivity|].
  destruct (negb (Ascii.eqb c nul)) eqn:E; [|exact IH].
  simpl. now rewrite E.
Qed.

Lemma drop_nul_idem (s : str) : drop_nul (drop_nul s) = drop_nul s.
Proof. apply drop_nul_id, drop_nul_no_nul. Qed.

(** A captured text holds no NUL byte. *)
Lemma capture_no_nul (s : str) : no_nul (capture s) = true.
Proof.
  unfold capture, no_nul. apply forallb_forall. intros c Hc.
  apply strip_incl in Hc.
  pose proof (drop_nul_no_nul s) as H. unfold no_nul in H.
  rewrite forallb_forall in H. now apply H.
Qed.

(** The capture of a text is the capture of what is left of it without its
    NUL bytes. *)
Lemma capture_drop_nul (s : str) : capture (drop_nul s) = capture s.
Proof. unfold capture. now rewrite drop_nul_idem. Qed.

Lemma capture_strip (s : str) : no_nul s = true -> capture s = strip_newlines s.
Proof. intros H. unfold capture. now rewrite (drop_nul_id s H). Qed.

Lemma capture_app_keep (a b : str) :
  capture b <> [] -> capture (a ++ b) = drop_nul a ++ capture b.
Proof.
  unfold capture. intros Hb. rewrite drop_nul_app. now apply strip_app_keep.
Qed.

Lemma capture_app_drop (a b : str) :
  capture b = [] -> capture (a ++ b) = capture a.
Proof.
  unfold capture. intros Hb. rewrite drop_nul_app. now apply strip_app_drop.
Qed.

Lemma capture_nl (s : str) : capture (s ++ [nl]) = capture s.
Proof. now apply capture_app_drop. Qed.

(** A text of one line without a NUL byte is what its capture gives back. *)
Lemma capture_one_line (s : str) :
  one_line s = true -> no_nul s = true -> capture s = s.
Proof.
  intros H N. rewrite (capture_strip s N). now apply strip_one_line.
Qed.

Lemma one_line_app (a b : str) :
  one_line (a ++ b) = one_line a && one_line b.
Proof. apply forallb_app. Qed.

Lemma one_line_firstn (n : nat) (s : str) :
  one_line s = true -> one_line (firstn n s) = true.
Proof.
  intros H. rewrite <- (firstn_skipn n s), one_line_app in H.
  now apply andb_true_iff in H.
Qed.

Lemma unlines_cons (m : str) (ms : list str) :
  unlines (m :: ms) = m ++ nl :: unlines ms.
Proof. unfold unlines. simpl. now rewrite <- app_assoc. Qed.

(** Matches written one per line and captured: the lines of the captured
    text are the matches. *)
Lemma capture_unlines (ms : list str) :
  Forall (fun m => m <> [] /\ one_line m = true /\ no_nul m = true) ms ->
  lines (capture (unlines ms)) = ms.
Proof.
  induction 1 as [|m ms [Hne [Hm Hn]] Hms IH]; [reflexivity|].
  rewrite unlines_cons. destruct ms as [|m' ms'].
  - change (unlines []) with (@nil ascii).
    rewrite capture_nl, (capture_one_line m Hm Hn).
    unfold lines. rewrite (fields_one_line m Hm). simpl.
    destruct m; [contradiction|reflexivity].
  - assert (Hc : capture (unlines (m' :: ms')) <> []).
    { intros E. rewrite E in IH. discriminate. }
    change (m ++ nl :: unlines (m' :: ms'))
      with (m ++ [nl] ++ unlines (m' :: ms')).
    rewrite app_assoc, (capture_app_keep _ _ Hc), drop_nul_app.
    rewrite (drop_nul_id m Hn), <- app_assoc. simpl.
    rewrite (lines_cons _ _ Hm). now rewrite IH.
Qed.

Lemma capture_unlines_one (m : str) :
  m <> [] -> one_line m = true -> no_nul m = true -> capture (unlines [m]) = m.
Proof.
  intros _ Hm Hn. rewrite unlines_cons. change (unlines []) with (@nil ascii).
  rewrite capture_nl. now apply capture_one_line.
Qed.

End TextFacts.

(** ** The matcher against the meaning of a pattern *)

Section MatcherFacts.

Variable p : ere.

Lemma ends_sound_gen (q : ere) (s : str) (n : nat) :
  In n (ends q s) -> n <= length s /\ matches q (firstn n s).
Proof.
  revert q n. induction s as [|c s IH]; intros q n Hin.
  - destruct q as [|[b|b] q]; simpl in Hin; try contradiction.
    destruct Hin as [<-|[]]. split; [lia|constructor].
  - destruct q as [|[b|b] q]; simpl in Hin.
    + destruct Hin as [<-|[]]. split; [lia|constructor].
    + destruct (in_set b c) eqn:Hb; [|contradiction].
      apply in_map_iff in Hin. destruct Hin as (m & <- & Hm).
      apply IH in Hm. destruct Hm as [Hle Hm]. simpl. split; [lia|].
      now constructor.
    + destruct (in_set b c) eqn:Hb; [|contradiction].
      apply in_map_iff in Hin. destruct Hin as (m & <- & Hm).
      apply in_app_iff in Hm. simpl.
      destruct Hm as [Hm|Hm]; apply IH in Hm; destruct Hm as [Hle Hm];
        (split; [lia|]).
      * now apply matches_many_last.
      * now apply matches_many_more.
Qed.

Lemma ends_complete_gen (q : ere) (s : str) (n : nat) :
  n <= length s -> matches q (firstn n s) -> In n (ends q s).
Proof.
  revert q n. induction s as [|c s IH]; intros q n Hle Hm.
  - assert (n = 0) by (simpl in Hle; lia). subst n. simpl in Hm.
    inversion Hm; subst. now left.
  - destruct n as [|n].
    + simpl in Hm. inversion Hm; subst. now left.
    + simpl in Hle, Hm. assert (Hn : n <= length s) by lia.
      inversion Hm as [|b q' c' t' Hb Hq|b q' c' t' Hb Hq|b q' c' t' Hb Hq];
        subst; simpl; rewrite Hb; apply in_map; auto.
      * apply in_app_iff. left. auto.
      * apply in_app_iff. right. auto.
Qed.

Lemma ends_sound (s : str) (n : nat) :
  In n (ends p s) -> n <= length s /\ matches p (firstn n s).
Proof. apply ends_sound_gen. Qed.

Lemma ends_complete (s : str) (n : nat) :
  n <= length s -> matches p (firstn n s) -> In n (ends p s).
Proof. apply ends_complete_gen. Qed.

Lemma max_of_list (n : nat) (ns : list nat) :
  In (fold_right Nat.max n ns) (n :: ns) /\
  forall m, In m (n :: ns) -> m <= fold_right Nat.max n ns.
Proof.
  induction ns as [|x ns [Hin Hub]]; simpl.
  - split; [now left|]. intros m [<-|[]]. lia.
  - split.
    + destruct (Nat.max_spec x (fold_right Nat.max n ns)) as [[_ ->]|[_ ->]].
      * destruct Hin as [Hin|Hin]; [now left|right; now right].
      * right. now left.
    + intros m [<-|[<-|Hm]].
      * specialize (Hub n (or_introl eq_refl)). lia.
      * lia.
      * specialize (Hub m (or_intror Hm)). lia.
Qed.

Lemma longest_some (s : str) (n : nat) :
  longest p s = Some n ->
  In n (ends p s) /\ forall m, In m (ends p s) -> m <= n.
Proof.
  unfold longest. destruct (ends p s) as [|x xs]; [discriminate|].
  intros [= <-]. apply max_of_list.
Qed.

Lemma longest_intro (s : str) (n : nat) :
  In n (ends p s) -> (forall m, In m (ends p s) -> m <= n) ->
  longest p s = Some n.
Proof.
  intros Hin Hub. unfold longest.
  destruct (ends p s) as [|x xs] eqn:E; [contradiction|].
  destruct (max_of_list x xs) as [Hin' Hub']. f_equal.
  apply Nat.le_antisymm; auto.
Qed.

(** No match starts at or after [skip]: [grep -o] prints nothing. *)
Lemma only_matching_none (s : str) (skip : nat) :
  (forall i n, skip <= i -> ~ In (S n) (ends p (skipn i s))) ->
  only_matching p s skip = [].
Proof.
  revert skip. induction s as [|c s IH]; intros skip H; [reflexivity|].
  simpl. destruct skip as [|k].
  - destruct (longest p (c :: s)) as [[|n]|] eqn:E.
    + apply IH. intros i n Hi. apply (H (S i) n). lia.
    + apply longest_some in E. destruct E as [E _].
      exfalso. apply (H 0 n); [lia|exact E].
    + apply IH. intros i n Hi. apply (H (S i) n). lia.
  - apply IH. intros i n Hi. apply (H (S i) n). lia.
Qed.

(** Matches that start in [pre] and end in it are printed first; the
    search then goes on at the end of [pre]. *)
Lemma only_matching_skip_prefix (pre s : str) (skip : nat) :
  skip <= length pre ->
  (forall i n, i < length pre ->
     In (S n) (ends p (skipn i (pre ++ s))) -> i + S n <= length pre) ->
  exists before,
    only_matching p (pre ++ s) skip = before ++ only_matching p s 0.
Proof.
  revert skip. induction pre as [|c pre IH]; intros skip Hs H.
  - simpl in Hs. assert (skip = 0) by lia. subst. now exists [].
  - assert (H' : forall i n, i < length pre ->
              In (S n) (ends p (skipn i (pre ++ s))) -> i + S n <= length pre).
    { intros i n Hi Hin. specialize (H (S i) n). simpl in H.
      specialize (H ltac:(lia) Hin). lia. }
    simpl. simpl in Hs. destruct skip as [|k].
    + destruct (longest p (c :: pre ++ s)) as [[|n]|] eqn:E.
      * apply (IH 0); [lia|exact H'].
      * apply longest_some in E. destruct E as [E _].
        specialize (H 0 n). simpl in H. specialize (H ltac:(lia) E).
        destruct (IH n ltac:(lia) H') as [before Hb].
        exists ((c :: firstn n (pre ++ s)) :: before). now rewrite Hb.
      * apply (IH 0); [lia|exact H'].
    + apply (IH k); [lia|exact H'].
Qed.

(** No match starts in [pre]: nothing is printed for it. *)
Lemma only_matching_clean_prefix (pre s : str) (skip : nat) :
  skip <= length pre ->
  (forall i n, skip <= i < length pre ->
     ~ In (S n) (ends p (skipn i (pre ++ s)))) ->
  only_matching p (pre ++ s) skip = only_matching p s 0.
Proof.
  revert skip. induction pre as [|c pre IH]; intros skip Hs H.
  - simpl in Hs. assert (skip = 0) by lia. now subst.
  - simpl. simpl in Hs. destruct skip as [|k].
    + assert (H' : forall i n, 0 <= i < length pre ->
                ~ In (S n) (ends p (skipn i (pre ++ s)))).
      { intros i n Hi. apply (H (S i) n). simpl. lia. }
      destruct (longest p (c :: pre ++ s)) as [[|n]|] eqn:E.
      * apply (IH 0); [lia|exact H'].
      * apply longest_some in E. destruct E as [E _].
        exfalso. apply (H 0 n); [simpl; lia|exact E].
      * apply (IH 0); [lia|exact H'].
    + apply (IH k); [lia|].
      intros i n Hi. apply (H (S i) n). simpl. lia.
Qed.

(** At the head of a longest match: it is printed and passed over. *)
Lemma only_matching_here (t post : str) :
  t <> [] -> longest p (t ++ post) = Some (length t) ->
  only_matching p (t ++ post) 0 = t :: only_matching p post 0.
Proof.
  intros Hne E. destruct t as [|c t]; [contradiction|].
  simpl app. simpl only_matching. simpl length in E.
  change (c :: t ++ post) with ((c :: t) ++ post) in E |- *.
  rewrite E. f_equal.
  - change (S (length t)) with (length (c :: t)).
    rewrite firstn_app, firstn_all, Nat.sub_diag. simpl. now rewrite app_nil_r.
  - apply only_matching_clean_prefix; [lia|]. intros i n Hi. lia.
Qed.

End MatcherFacts.

(** ** [grep -o] against the occurrences of a token *)

Section OccurrenceFacts.

Variable p : ere.
Variable token : str -> Prop.
Hypothesis token_matches : forall t, token t <-> matches p t.
Hypothesis token_nonempty : forall t, token t -> t <> [].

Lemma occurrence_of_end (b : str) (i n : nat) :
  In n (ends p (skipn i b)) ->
  b = firstn i b ++ firstn n (skipn i b) ++ skipn n (skipn i b) /\
  token (firstn n (skipn i b)) /\
  length (firstn n (skipn i b)) = n /\
  (0 < n -> length (firstn i b) = i).
Proof.
  intros Hin. apply ends_sound in Hin. destruct Hin as [Hle Hm].
  repeat split.
  - now rewrite !firstn_skipn.
  - now apply token_matches.
  - rewrite length_firstn. lia.
  - intros Hn. rewrite length_firstn. rewrite length_skipn in Hle. lia.
Qed.

Lemma occurrence_at_head (s : str) (n : nat) :
  In n (ends p s) ->
  s = firstn n s ++ skipn n s /\ token (firstn n s) /\
  length (firstn n s) = n.
Proof.
  intros Hin. apply ends_sound in Hin. destruct Hin as [Hle Hm].
  repeat split.
  - now rewrite firstn_skipn.
  - now apply token_matches.
  - rewrite length_firstn. lia.
Qed.

Lemma only_matching_no_token (b : str) :
  no_token token b -> only_matching p b 0 = [].
Proof.
  intros Hno. apply only_matching_none. intros i n _ Hin.
  apply occurrence_of_end in Hin. destruct Hin as (Hb & Ht & _).
  exact (Hno _ _ _ Hb Ht).
Qed.

Lemma only_matching_only_token (b pre t post : str) :
  only_token token b pre t post -> only_matching p b 0 = [t].
Proof.
  intros (Hb & Ht & Honly). subst b.
  rewrite only_matching_clean_prefix.
  - rewrite only_matching_here.
    + f_equal. apply only_matching_none. intros i n _ Hin.
      apply occurrence_of_end in Hin.
      destruct Hin as (Hpost & Ht' & Hlen & Hi).
      specialize (Honly (pre ++ t ++ firstn i post)
                        (firstn (S n) (skipn i post))
                        (skipn (S n) (skipn i post))).
      rewrite <- !app_assoc in Honly. rewrite <- Hpost in Honly.
      specialize (Honly eq_refl Ht').
      rewrite !length_app, Hlen, (Hi ltac:(lia)) in Honly. lia.
    + now apply token_nonempty.
    + apply longest_intro.
      * apply ends_complete.
        -- rewrite length_app. lia.
        -- rewrite firstn_app, firstn_all, Nat.sub_diag. simpl.
           rewrite app_nil_r. now apply token_matches.
      * intros m Hin. destruct m as [|m]; [lia|].
        apply occurrence_at_head in Hin.
        destruct Hin as (Htp & Ht' & Hlen).
        specialize (Honly pre (firstn (S m) (t ++ post))
                          (skipn (S m) (t ++ post))).
        rewrite <- Htp in Honly.
        specialize (Honly eq_refl Ht'). rewrite Hlen in Honly. lia.
  - lia.
  - intros i n Hi Hin. apply occurrence_of_end in Hin.
    destruct Hin as (Hb & Ht' & Hlen & Hpre).
    specialize (Honly _ _ _ Hb Ht').
    rewrite (Hpre ltac:(lia)) in Honly. lia.
Qed.

End OccurrenceFacts.

(** ** What the two patterns match *)

Section PatternFacts.

Lemma matches_nil_iff (t : str) : matches [] t <-> t = [].
Proof.
  split; [inversion 1; reflexivity|intros ->; constructor].
Qed.

Lemma matches_one_iff (b : charset) (q : ere) (t : str) :
  matches (One b :: q) t <->
  exists c t', t = c :: t' /\ in_set b c = true /\ matches q t'.
Proof.
  split.
  - inversion 1; subst. eauto.
  - intros (c & t' & -> & Hc & Hq). now constructor.
Qed.

Lemma matches_many_iff (b : charset) (q : ere) (t : str) :
  matches (Many b :: q) t <->
  exists u t', u <> [] /\ forallb (in_set b) u = true /\
               t = u ++ t' /\ matches q t'.
Proof.
  split.
  - intros H. remember (Many b :: q) as r eqn:Er.
    induction H as [|b0 q0 c t Hc Hq _|b0 q0 c t Hc Hq _|b0 q0 c t Hc Hq IH];
      try discriminate; injection Er as -> ->.
    + exists [c], t. simpl. rewrite Hc. repeat split; [discriminate|assumption].
    + destruct (IH eq_refl) as (u & t' & Hu & Hall & -> & Hq').
      exists (c :: u), t'. simpl. rewrite Hc, Hall.
      repeat split; [discriminate|assumption].
  - intros (u & t' & Hu & Hall & -> & Hq).
    induction u as [|c u IH]; [contradiction|].
    simpl in Hall. apply andb_true_iff in Hall. destruct Hall as [Hc Hall].
    destruct u as [|c' u'].
    + simpl. now apply matches_many_last.
    + simpl. apply matches_many_more; [assumption|].
      apply IH; [discriminate|assumption].
Qed.

Lemma matches_literal_iff (k : str) (q : ere) (t : str) :
  matches (literal k ++ q) t <-> exists t', t = k ++ t' /\ matches q t'.
Proof.
  revert t. induction k as [|c k IH]; intros t; simpl.
  - split; [eauto|]. now intros (t' & -> & H).
  - rewrite matches_one_iff. split.
    + intros (c' & t' & -> & Hc & Hm). simpl in Hc.
      apply Ascii.eqb_eq in Hc. subst c'.
      apply IH in Hm. destruct Hm as (t'' & -> & Hm). eauto.
    + intros (t' & -> & Hm). exists c, (k ++ t').
      repeat split; [apply Ascii.eqb_refl|]. apply IH. eauto.
Qed.

Lemma matches_digits_iff (t : str) :
  matches [Many (Range "0" "9")] t <-> t <> [] /\ forallb is_digit t = true.
Proof.
  rewrite matches_many_iff. split.
  - intros (u & t' & Hu & Hall & -> & Hm). apply matches_nil_iff in Hm.
    subst t'. rewrite app_nil_r. now split.
  - intros [Hne Hall]. exists t, []. rewrite app_nil_r.
    repeat split; auto. constructor.
Qed.

Lemma matches_dash_digits_iff (t : str) :
  matches [One (Chr "-"); Many (Range "0" "9")] t <->
  exists ds, ds <> [] /\ forallb is_digit ds = true /\ t = "-"%char :: ds.
Proof.
  rewrite matches_one_iff. split.
  - intros (c & t' & -> & Hc & Hm). simpl in Hc. apply Ascii.eqb_eq in Hc.
    subst c. apply matches_digits_iff in Hm. destruct Hm. eauto.
  - intros (ds & Hne & Hall & ->). exists "-"%char, ds.
    repeat split; auto. now apply matches_digits_iff.
Qed.

Lemma matches_key_ere (k t : str) : key_token k t <-> matches (key_ere k) t.
Proof.
  unfold key_ere, key_token. rewrite matches_literal_iff. split.
  - intros (ds & Hne & Hall & ->). exists ("-"%char :: ds). split; [reflexivity|].
    apply matches_dash_digits_iff. eauto.
  - intros (t' & -> & Hm). apply matches_dash_digits_iff in Hm.
    destruct Hm as (ds & Hne & Hall & ->). eauto.
Qed.

Lemma matches_any_key_ere (t : str) :
  any_key_token t <-> matches any_key_ere t.
Proof.
  unfold any_key_ere, any_key_token, key_token. rewrite matches_many_iff. split.
  - intros (up & Hu & Hall & ds & Hne & Hd & ->).
    exists up, ("-"%char :: ds). repeat split; auto.
    apply matches_dash_digits_iff. eauto.
  - intros (up & t' & Hu & Hall & -> & Hm).
    apply matches_dash_digits_iff in Hm. destruct Hm as (ds & Hne & Hd & ->).
    exists up. repeat split; auto. eauto.
Qed.

Lemma key_token_nonempty (k t : str) : key_token k t -> t <> [].
Proof.
  intros (ds & _ & _ & ->) E. apply app_eq_nil in E. destruct E; discriminate.
Qed.

Lemma any_key_token_nonempty (t : str) : any_key_token t -> t <> [].
Proof. intros (up & _ & _ & H). exact (key_token_nonempty up t H). Qed.

Lemma key_token_digit (k t : str) : key_token k t -> existsb is_digit t = true.
Proof.
  intros (ds & Hne & Hall & ->). rewrite existsb_app. apply orb_true_iff. right.
  simpl. destruct ds as [|d ds]; [contradiction|]. simpl in *.
  apply andb_true_iff in Hall. destruct Hall as [-> _]. reflexivity.
Qed.

Lemma any_key_token_digit (t : str) :
  any_key_token t -> existsb is_digit t = true.
Proof. intros (up & _ & _ & H). exact (key_token_digit up t H). Qed.

End PatternFacts.

(** ** From the branch name to the captured key *)

Section ExtractionFacts.

Variable p : ere.

Lemma only_matching_lines (s : str) (skip : nat) :
  one_line s = true -> no_nul s = true ->
  Forall (fun m => m <> [] /\ one_line m = true /\ no_nul m = true)
         (only_matching p s skip).
Proof.
  revert skip. induction s as [|c s IH]; intros skip Hs Hn; [constructor|].
  assert (Hs' : one_line s = true).
  { simpl in Hs. now apply andb_true_iff in Hs. }
  assert (Hn' : no_nul s = true).
  { simpl in Hn. now apply andb_true_iff in Hn. }
  simpl. destruct skip as [|k]; [|now apply IH].
  destruct (longest p (c :: s)) as [[|n]|]; try now apply IH.
  constructor; [|now apply IH]. split; [discriminate|]. split.
  - apply (one_line_firstn (S n) (c :: s) Hs).
  - apply (no_nul_firstn (S n) (c :: s) Hn).
Qed.

Lemma echo_flag_no_digit (cs : str) :
  forallb echo_flag cs = true -> existsb is_digit cs = false.
Proof.
  induction cs as [|c cs IH]; simpl; [reflexivity|].
  intros H. apply andb_true_iff in H. destruct H as [Hc Hcs].
  rewrite (IH Hcs), orb_false_r. unfold echo_flag in Hc.
  repeat (apply orb_true_iff in Hc; destruct Hc as [Hc|Hc]);
    apply Ascii.eqb_eq in Hc; now subst c.
Qed.

Lemma echo_option_no_digit (b : str) :
  echo_option b = true -> existsb is_digit b = false.
Proof.
  destruct b as [|c b]; [discriminate|]. destruct b as [|c' b]; simpl.
  - destruct c as [[] [] [] [] [] [] [] []]; discriminate.
  - destruct (Ascii.eqb c "-") eqn:E.
    + apply Ascii.eqb_eq in E. subst c. intros H.
      exact (echo_flag_no_digit (c' :: b) H).
    + destruct c as [[] [] [] [] [] [] [] []]; discriminate.
Qed.

Lemma echo_stdout_plain (b : str) :
  existsb is_digit b = true -> echo_stdout b = b ++ [nl].
Proof.
  intros H. unfold echo_stdout. destruct (echo_option b) eqn:E; [|reflexivity].
  apply echo_option_no_digit in E. congruence.
Qed.

Lemma grep_of_echo (b : str) :
  one_line b = true ->
  grep_oE p (echo_stdout b) =
  unlines (if echo_option b then [] else only_matching p b 0).
Proof.
  intros Hb. unfold echo_stdout, grep_oE. destruct (echo_option b).
  - destruct (existsb (Ascii.eqb "n") b); reflexivity.
  - rewrite (lines_one_line b Hb). simpl. now rewrite app_nil_r.
Qed.

(** The lines of the captured key are the matches of the branch name. *)
Lemma key_lines (b : str) :
  one_line b = true -> no_nul b = true ->
  lines (capture (grep_oE p (echo_stdout b))) =
  if echo_option b then [] else only_matching p b 0.
Proof.
  intros Hb Hn. rewrite (grep_of_echo b Hb). apply capture_unlines.
  destruct (echo_option b); [constructor|]. now apply only_matching_lines.
Qed.

Variable token : str -> Prop.
Hypothesis token_matches : forall t, token t <-> matches p t.
Hypothesis token_nonempty : forall t, token t -> t <> [].
Hypothesis token_digit : forall t, token t -> existsb is_digit t = true.

Lemma key_of_no_token (b : str) :
  one_line b = true -> no_token token b ->
  capture (grep_oE p (echo_stdout b)) = [].
Proof.
  intros Hb Hno. rewrite (grep_of_echo b Hb).
  destruct (echo_option b); [reflexivity|].
  now rewrite (only_matching_no_token p token token_matches b Hno).
Qed.

Lemma key_of_only_token (b pre t post : str) :
  one_line b = true -> no_nul b = true -> only_token token b pre t post ->
  capture (grep_oE p (echo_stdout b)) = t.
Proof.
  intros Hb Hn Honly. rewrite (grep_of_echo b Hb).
  destruct Honly as (Eb & Ht & Hin).
  assert (Hd : existsb is_digit b = true).
  { subst b. rewrite !existsb_app, (token_digit t Ht). apply orb_true_iff.
    right. reflexivity. }
  destruct (echo_option b) eqn:E.
  { apply echo_option_no_digit in E. congruence. }
  rewrite (only_matching_only_token p token token_matches token_nonempty
             b pre t post (conj Eb (conj Ht Hin))).
  subst b. rewrite !one_line_app in Hb. rewrite !no_nul_app in Hn.
  apply andb_true_iff in Hb. destruct Hb as [_ Hb].
  apply andb_true_iff in Hb. destruct Hb as [Hb _].
  apply andb_true_iff in Hn. destruct Hn as [_ Hn].
  apply andb_true_iff in Hn. destruct Hn as [Hn _].
  apply capture_unlines_one; [now apply token_nonempty| |]; assumption.
Qed.

End ExtractionFacts.

(** ** The status line of a response *)

Section ResponseFacts.

Let value (acc : nat) (c : ascii) : nat := 10 * acc + (nat_of_ascii c - 48).

Lemma numeral_of_uint (d : Decimal.uint) :
  forallb is_digit (lit (NilEmpty.string_of_uint d)) = true /\
  forall acc,
    fold_left value (lit (NilEmpty.string_of_uint d)) acc = Nat.of_uint_acc d acc.
Proof.
  induction d as [|d [Hd Hv]|d [Hd Hv]|d [Hd Hv]|d [Hd Hv]|d [Hd Hv]
                  |d [Hd Hv]|d [Hd Hv]|d [Hd Hv]|d [Hd Hv]|d [Hd Hv]];
    (split; [try exact Hd; reflexivity|]); intros acc;
    try reflexivity;
    cbn [NilEmpty.string_of_uint lit list_ascii_of_string fold_left Nat.of_uint_acc];
    fold (lit (NilEmpty.string_of_uint d));
    rewrite Hv, Nat.tail_mul_spec; f_equal; unfold value; simpl; lia.
Qed.

Lemma zeros_value (k : nat) : fold_left value (repeat "0"%char k) 0 = 0.
Proof. induction k as [|k IH]; [reflexivity|exact IH]. Qed.

Lemma zeros_digits (k : nat) : forallb is_digit (repeat "0"%char k) = true.
Proof. induction k as [|k IH]; [reflexivity|exact IH]. Qed.

Lemma pad3_length (n : nat) : 3 <= length (pad3 n).
Proof. unfold pad3. rewrite length_app, repeat_length. lia. Qed.

Lemma pad3_digits (n : nat) : forallb is_digit (pad3 n) = true.
Proof.
  unfold pad3, decimal. rewrite forallb_app, zeros_digits.
  exact (proj1 (numeral_of_uint (Nat.to_uint n))).
Qed.

Lemma number_pad3 (n : nat) : number (pad3 n) = Some n.
Proof.
  unfold number. pose proof (pad3_length n) as Hlen.
  destruct (pad3 n) as [|c s] eqn:E; [simpl in Hlen; lia|].
  rewrite <- E, pad3_digits. f_equal.
  unfold pad3, decimal. rewrite fold_left_app.
  change (fold_left _ (repeat "0"%char ?k) 0) with (fold_left value (repeat "0"%char k) 0).
  rewrite zeros_value.
  change (fold_left ?f ?l 0) with (fold_left value l 0).
  rewrite (proj2 (numeral_of_uint (Nat.to_uint n))).
  apply Unsigned.of_to.
Qed.

Lemma digits_one_line (s : str) : forallb is_digit s = true -> one_line s = true.
Proof.
  induction s as [|c s IH]; [reflexivity|]. simpl.
  intros H. apply andb_true_iff in H. destruct H as [Hc Hs].
  rewrite (IH Hs), andb_true_r.
  destruct (Ascii.eqb c nl) eqn:E; [|reflexivity].
  apply Ascii.eqb_eq in E. subst c. discriminate.
Qed.

Lemma pad3_one_line (n : nat) : one_line (pad3 n) = true.
Proof. apply digits_one_line, pad3_digits. Qed.

Lemma digits_no_nul (s : str) : forallb is_digit s = true -> no_nul s = true.
Proof.
  induction s as [|c s IH]; [reflexivity|]. simpl.
  intros H. apply andb_true_iff in H. destruct H as [Hc Hs].
  rewrite (IH Hs), andb_true_r.
  destruct (Ascii.eqb c nul) eqn:E; [|reflexivity].
  apply Ascii.eqb_eq in E. subst c. discriminate.
Qed.

Lemma pad3_no_nul (n : nat) : no_nul (pad3 n) = true.
Proof. apply digits_no_nul, pad3_digits. Qed.

Lemma pad3_nonempty (n : nat) : pad3 n <> [].
Proof.
  pose proof (pad3_length n) as H. intros E. rewrite E in H. simpl in H. lia.
Qed.

Lemma test_eq_pad3 (n m : nat) : (test_eq (pad3 n) m =? 0) = (n =? m).
Proof.
  unfold test_eq. rewrite number_pad3. now destruct (n =? m).
Qed.

Lemma last_default {A} (ls : list A) (d d' : A) :
  ls <> [] -> last ls d = last ls d'.
Proof.
  induction ls as [|x ls IH]; [contradiction|]. intros _.
  destruct ls as [|y ls]; [reflexivity|].
  change (last (y :: ls) d = last (y :: ls) d'). apply IH. discriminate.
Qed.

Lemma last_head {A} (l : A) (ls : list A) (d : A) : last ls l = last (l :: ls) d.
Proof.
  destruct ls as [|x ls]; [reflexivity|].
  change (last (x :: ls) l = last (x :: ls) d). apply last_default. discriminate.
Qed.

(** A body followed by a status line: the lines of what [echo] writes. *)
Lemma lines_body_status (body code : str) :
  one_line code = true ->
  lines (body ++ nl :: code ++ [nl]) = fields body ++ [code].
Proof.
  intros Hc. unfold lines.
  rewrite fields_app_nl, fields_app_nl, (fields_one_line code Hc).
  change ([code] ++ fields []) with ([code] ++ [@nil ascii]).
  rewrite !app_assoc, last_last, removelast_last. reflexivity.
Qed.

Lemma tail_body_status (body code : str) :
  code <> [] -> one_line code = true -> no_nul code = true ->
  capture (tail_n1 (body ++ nl :: code ++ [nl])) = code.
Proof.
  intros Hne Hc Hn. unfold tail_n1. rewrite (lines_body_status body code Hc).
  destruct (fields body ++ [code]) as [|l ls] eqn:E.
  - apply app_eq_nil in E. destruct E; discriminate.
  - rewrite (last_head l ls []), <- E, last_last.
    now apply capture_unlines_one.
Qed.

Lemma head_body_status (body code : str) :
  one_line code = true ->
  capture (head_n_minus1 (body ++ nl :: code ++ [nl])) = capture body.
Proof.
  intros Hc. unfold head_n_minus1.
  rewrite (lines_body_status body code Hc), removelast_last, unlines_fields.
  apply capture_nl.
Qed.

End ResponseFacts.

(** ** The configured-prefix pattern on a branch name *)

Section KeyFacts.

Lemma matches_within_only (p : ere) (token : str -> Prop) (b pre t post : str) :
  (forall x, token x <-> matches p x) -> (forall x, token x -> x <> []) ->
  b = pre ++ t ++ post -> token t ->
  matches_within p b (length pre) (length pre + length t) = true ->
  only_token token b pre t post.
Proof.
  intros Htok Hne Hb Ht Hchk. split; [exact Hb|]. split; [exact Ht|].
  intros pre' t' post' Hb' Ht'.
  unfold matches_within in Hchk. rewrite forallb_forall in Hchk.
  assert (Hi : In (length pre') (seq 0 (S (length b)))).
  { apply in_seq. rewrite Hb', length_app. lia. }
  specialize (Hchk _ Hi). rewrite forallb_forall in Hchk.
  assert (Hn : In (length t') (ends p (skipn (length pre') b))).
  { rewrite Hb', skipn_app, skipn_all, Nat.sub_diag. simpl.
    apply ends_complete; [rewrite length_app; lia|].
    rewrite firstn_app, firstn_all, Nat.sub_diag. simpl. rewrite app_nil_r.
    now apply Htok. }
  specialize (Hchk _ Hn). apply orb_true_iff in Hchk.
  destruct Hchk as [H0|H1].
  - apply Nat.eqb_eq in H0. apply Hne in Ht'.
    destruct t'; [contradiction|discriminate].
  - apply andb_true_iff in H1. destruct H1 as [Hlo Hhi].
    apply Nat.leb_le in Hlo, Hhi. lia.
Qed.

Lemma no_match_no_token (p : ere) (token : str -> Prop) (b : str) :
  (forall x, token x <-> matches p x) -> (forall x, token x -> x <> []) ->
  no_match p b = true -> no_token token b.
Proof.
  intros Htok Hne Hchk pre t post Hb Ht.
  unfold no_match in Hchk. rewrite forallb_forall in Hchk.
  assert (Hi : In (length pre) (seq 0 (S (length b)))).
  { apply in_seq. rewrite Hb, length_app. lia. }
  specialize (Hchk _ Hi). rewrite forallb_forall in Hchk.
  assert (Hn : In (length t) (ends p (skipn (length pre) b))).
  { rewrite Hb, skipn_app, skipn_all, Nat.sub_diag. simpl.
    apply ends_complete; [rewrite length_app; lia|].
    rewrite firstn_app, firstn_all, Nat.sub_diag. simpl. rewrite app_nil_r.
    now apply Htok. }
  specialize (Hchk _ Hn). apply Nat.eqb_eq in Hchk. apply Hne in Ht.
  destruct t; [contradiction|discriminate].
Qed.

Lemma no_digit_no_token (token : str -> Prop) (b : str) :
  (forall t, token t -> existsb is_digit t = true) ->
  existsb is_digit b = false -> no_token token b.
Proof.
  intros Hd Hb pre t post -> Ht. rewrite !existsb_app, (Hd t Ht) in Hb.
  rewrite orb_true_r in Hb. discriminate.
Qed.

Lemma upper_not_dash (c : ascii) : is_upper c = true -> c <> "-"%char.
Proof. intros H ->. discriminate. Qed.

Lemma upper_not_digit (c : ascii) : is_upper c = true -> is_digit c = false.
Proof.
  unfold is_upper, is_digit. intros H. apply andb_true_iff in H.
  destruct H as [H _]. apply Nat.leb_le in H. apply andb_false_iff. right.
  apply Nat.leb_gt. change (nat_of_ascii "9") with 57.
  change (nat_of_ascii "A") with 65 in H. lia.
Qed.

Lemma upper_plain_key (k : str) :
  k <> [] -> forallb is_upper k = true -> plain_key k = true.
Proof.
  intros Hne Hk. destruct k as [|c k]; [contradiction|].
  unfold plain_key. apply andb_true_iff. split.
  - simpl in Hk. apply andb_true_iff in Hk. destruct Hk as [Hc _].
    apply negb_true_iff. apply Ascii.eqb_neq. now apply upper_not_dash.
  - rewrite forallb_forall in *. intros x Hx. specialize (Hk x Hx).
    clear - Hk. unfold is_upper in Hk. apply andb_true_iff in Hk.
    destruct Hk as [Hlo Hhi]. apply Nat.leb_le in Hlo, Hhi.
    change (nat_of_ascii "A") with 65 in Hlo.
    change (nat_of_ascii "Z") with 90 in Hhi.
    rewrite <- (ascii_nat_embedding x).
    remember (nat_of_ascii x) as n eqn:En. clear En x.
    do 65 (destruct n as [|n]; [lia|]).
    do 26 (destruct n as [|n]; [reflexivity|]). lia.
Qed.

(** At an occurrence that no digit follows, the longest match is the
    occurrence. *)
Lemma key_ere_longest (k ds post : str) :
  ds <> [] -> forallb is_digit ds = true -> no_digit_ahead post ->
  longest (key_ere k) ((k ++ "-"%char :: ds) ++ post)
  = Some (length (k ++ "-"%char :: ds)).
Proof.
  intros Hne Hds Hpost. apply longest_intro.
  - apply ends_complete; [rewrite !length_app; lia|].
    rewrite firstn_app, firstn_all, Nat.sub_diag. simpl. rewrite app_nil_r.
    apply matches_key_ere. exists ds. auto.
  - intros m Hin. apply ends_sound in Hin. destruct Hin as [Hle Hm].
    apply matches_key_ere in Hm. destruct Hm as (ds' & Hne' & Hds' & E).
    assert (Hlen : m = length (k ++ "-"%char :: ds')).
    { rewrite <- E, length_firstn. lia. }
    rewrite !length_app in *. simpl length in *.
    destruct (Nat.le_gt_cases (length ds') (length ds)) as [|Hgt]; [lia|].
    exfalso. rewrite <- !app_assoc in E. simpl in E.
    rewrite firstn_app in E.
    rewrite firstn_all2 in E by lia.
    apply app_inv_head in E.
    replace (m - length k) with (S (length ds')) in E by lia.
    simpl in E. injection E as E.
    rewrite firstn_app, firstn_all2 in E by lia.
    destruct post as [|c post].
    + rewrite firstn_nil, app_nil_r in E. subst ds'. lia.
    + replace (length ds' - length ds) with (S (length ds' - length ds - 1)) in E by lia.
      simpl in E, Hpost. rewrite <- E, forallb_app in Hds'. simpl in Hds'.
      rewrite Hpost in Hds'. simpl in Hds'. rewrite andb_false_r in Hds'.
      discriminate.
Qed.

(** A match of an all-uppercase key that starts before an occurrence of
    the key ends before it. *)
Lemma key_ere_no_straddle (k pre rest : str) (i n : nat) :
  k <> [] -> forallb is_upper k = true -> i < length pre ->
  In (S n) (ends (key_ere k) (skipn i (pre ++ k ++ rest))) ->
  i + S n <= length pre.
Proof.
  intros Hne Hk Hi Hin. apply ends_sound in Hin. destruct Hin as [Hle Hm].
  apply matches_key_ere in Hm. destruct Hm as (ds & Hds & Hd & E).
  assert (Hlen : S n = length k + S (length ds)).
  { apply (f_equal (@length _)) in E.
    rewrite length_firstn, length_app in E. cbn [length] in E. lia. }
  assert (Hat : forall j, j < S n ->
            nth_error (pre ++ k ++ rest) (i + j)
            = nth_error (k ++ "-"%char :: ds) j).
  { intros j Hj. rewrite <- E, nth_error_firstn, nth_error_skipn.
    apply Nat.ltb_lt in Hj. now rewrite Hj. }
  assert (Hup : forall j, j < length k ->
            exists c, nth_error (pre ++ k ++ rest) (length pre + j) = Some c
                      /\ is_upper c = true).
  { intros j Hj. rewrite nth_error_app2 by lia.
    replace (length pre + j - length pre) with j by lia.
    rewrite nth_error_app1 by lia.
    destruct (nth_error k j) as [c|] eqn:Ec.
    - exists c. split; [reflexivity|].
      rewrite forallb_forall in Hk. apply Hk. eapply nth_error_In; eauto.
    - apply nth_error_None in Ec. lia. }
  destruct (Nat.le_gt_cases (i + S n) (length pre)) as [|Hgt]; [assumption|].
  exfalso. assert (Hk0 : 0 < length k) by (destruct k; [contradiction|simpl; lia]).
  destruct (Nat.le_gt_cases (length k) (length pre - i)) as [Hfar|Hnear].
  - (* the head of the key falls on the dash or the digits of the match *)
    destruct (Hup 0 Hk0) as (c & Hc & Hu).
    replace (length pre + 0) with (i + (length pre - i)) in Hc by lia.
    rewrite Hat in Hc by lia. rewrite nth_error_app2 in Hc by lia.
    apply nth_error_In in Hc. destruct Hc as [<-|Hc]; [discriminate|].
    rewrite forallb_forall in Hd. specialize (Hd c Hc).
    rewrite (upper_not_digit c Hu) in Hd. discriminate.
  - (* the dash of the match falls on a letter of the key *)
    destruct (Hup (i + length k - length pre) ltac:(lia)) as (c & Hc & Hu).
    replace (length pre + (i + length k - length pre)) with (i + length k) in Hc by lia.
    rewrite Hat in Hc by lia. rewrite nth_error_app2 in Hc by lia.
    rewrite Nat.sub_diag in Hc. simpl in Hc. injection Hc as <-. discriminate.
Qed.

(** Every occurrence of an all-uppercase key that no digit follows is
    among the matches printed. *)
Lemma key_ere_occurrence_printed (k pre ds post : str) :
  k <> [] -> forallb is_upper k = true ->
  ds <> [] -> forallb is_digit ds = true -> no_digit_ahead post ->
  In (k ++ "-"%char :: ds)
     (only_matching (key_ere k) (pre ++ (k ++ "-"%char :: ds) ++ post) 0).
Proof.
  intros Hne Hk Hds Hd Hpost.
  destruct (only_matching_skip_prefix (key_ere k) pre
              ((k ++ "-"%char :: ds) ++ post) 0) as [before Hb].
  - lia.
  - intros i n Hi Hin. rewrite <- !app_assoc in Hin.
    exact (key_ere_no_straddle k pre _ i n Hne Hk Hi Hin).
  - rewrite Hb. apply in_app_iff. right.
    rewrite only_matching_here.
    + now left.
    + intros E. apply app_eq_nil in E. destruct E; discriminate.
    + now apply key_ere_longest.
Qed.

End KeyFacts.

(** ** The runs of the two hooks *)

Section HookRuns.

Variable w : World.

Lemma branch_no_nul : no_nul (PostCommit.BRANCH_NAME w) = true.
Proof. apply capture_no_nul. Qed.

Lemma post_commit_stdout (t : transfer) :
  curl_stdout (PostCommit.delivery w) t = body t ++ nl :: pad3 (http_code t).
Proof.
  unfold curl_stdout. cbn [write_out PostCommit.delivery].
  f_equal. unfold lit.
  cbn [length expand_write_out prefixb list_ascii_of_string Ascii.eqb
       Bool.eqb andb skipn].
  now rewrite app_nil_r.
Qed.

Lemma post_commit_response (t : transfer) :
  let RESPONSE := capture (curl_stdout (PostCommit.delivery w) t) in
  capture (tail_n1 (echo_stdout RESPONSE)) = pad3 (http_code t) /\
  capture (head_n_minus1 (echo_stdout RESPONSE)) = capture (body t).
Proof.
  intros RESPONSE.
  assert (E : RESPONSE = drop_nul (body t) ++ nl :: pad3 (http_code t)).
  { unfold RESPONSE. rewrite post_commit_stdout.
    change (body t ++ nl :: pad3 (http_code t))
      with (body t ++ [nl] ++ pad3 (http_code t)).
    rewrite app_assoc, capture_app_keep;
      rewrite (capture_one_line _ (pad3_one_line (http_code t))
                 (pad3_no_nul (http_code t)));
      [|apply pad3_nonempty].
    rewrite drop_nul_app, <- app_assoc. reflexivity. }
  assert (Hecho : echo_stdout RESPONSE
                  = drop_nul (body t) ++ nl :: pad3 (http_code t) ++ [nl]).
  { rewrite echo_stdout_plain; rewrite E.
    - now rewrite <- app_assoc.
    - rewrite existsb_app. apply orb_true_iff. right. simpl.
      pose proof (pad3_digits (http_code t)) as Hd.
      pose proof (pad3_nonempty (http_code t)) as Hne.
      destruct (pad3 (http_code t)) as [|c s]; [contradiction|].
      simpl in *. apply andb_true_iff in Hd. destruct Hd as [-> _].
      reflexivity. }
  rewrite Hecho. split.
  - apply tail_body_status;
      [apply pad3_nonempty|apply pad3_one_line|apply pad3_no_nul].
  - rewrite (head_body_status _ _ (pad3_one_line (http_code t))).
    apply capture_drop_nul.
Qed.

Lemma post_commit_skips :
  PostCommit.ineligible w = true -> PostCommit.script w = ([], Exit 0).
Proof. intros H. unfold PostCommit.script. now rewrite H. Qed.

Lemma post_commit_no_key :
  PostCommit.JIRA_KEY w = [] -> PostCommit.script w = ([], Exit 0).
Proof.
  intros H. unfold PostCommit.script. rewrite H.
  now destruct (PostCommit.ineligible w).
Qed.

(** What the hook writes once it goes on to deliver. *)
Lemma post_commit_delivers :
  PostCommit.ineligible w = false -> PostCommit.JIRA_KEY w <> [] ->
  PostCommit.script w =
  ( [ Echo false (lit "Git Hook: Updating Jira card " ++ PostCommit.JIRA_KEY w
                  ++ lit " for branch '" ++ PostCommit.BRANCH_NAME w ++ lit "'");
      Curl (PostCommit.delivery w) ]
    ++ (let t := network w (PostCommit.delivery w) in
        if http_code t =? 200
        then [ Echo false (lit "✓ Successfully updated Jira card "
                           ++ PostCommit.JIRA_KEY w) ]
        else [ Echo false (lit "✗ Failed to update Jira card "
                           ++ PostCommit.JIRA_KEY w ++ lit " (HTTP "
                           ++ pad3 (http_code t) ++ lit ")");
               Echo false (lit "Response: " ++ capture (body t)) ]),
    Exit 0 ).
Proof.
  intros Hel Hkey. unfold PostCommit.script. rewrite Hel.
  destruct (PostCommit.JIRA_KEY w) as [|c key] eqn:Ek; [contradiction|].
  cbn [is_empty when bind ret exit echo emit curl fst snd app].
  destruct (post_commit_response (network w (PostCommit.delivery w))) as [Hc Hb].
  cbv zeta in Hc, Hb. rewrite Hc, Hb, test_eq_pad3.
  destruct (http_code (network w (PostCommit.delivery w)) =? 200); reflexivity.
Qed.

Lemma git_hook_no_key :
  GitHook.JIRA_KEY w = [] ->
  requests (trace (GitHook.script w)) = [] /\
  exit_status (GitHook.script w) = Some 0.
Proof.
  intros H. unfold GitHook.script. rewrite H. now split.
Qed.

Lemma git_hook_delivers :
  GitHook.JIRA_KEY w <> [] ->
  GitHook.script w =
  ( [ Echo true (GitHook.YELLOW ++ lit "Git Hook: Updating Jira card for branch '"
                 ++ GitHook.BRANCH_NAME w ++ lit "'" ++ GitHook.NC);
      Echo true (GitHook.YELLOW ++ lit "Found Jira key: " ++ GitHook.JIRA_KEY w
                 ++ GitHook.NC);
      Curl (GitHook.delivery w) ]
    ++ (let t := network w (GitHook.delivery w) in
        if curl_exit t =? 0
        then [ Echo true (GitHook.GREEN ++ lit "Successfully updated Jira card "
                          ++ GitHook.JIRA_KEY w ++ GitHook.NC);
               Echo false (lit "Response: " ++ capture (body t)) ]
        else [ Echo true (GitHook.RED ++ lit "Failed to update Jira card "
                          ++ GitHook.JIRA_KEY w ++ GitHook.NC);
               Echo false (lit "Make sure the backend server is running on "
                           ++ GitHook.API_BASE_URL) ]),
    Exit 0 ).
Proof.
  intros Hkey. unfold GitHook.script.
  destruct (GitHook.JIRA_KEY w) as [|c key] eqn:Ek; [contradiction|].
  cbn [is_empty when bind ret exit echo echo_e emit curl fst snd app].
  unfold curl_stdout. cbn [write_out GitHook.delivery]. rewrite app_nil_r.
  destruct (curl_exit (network w (GitHook.delivery w)) =? 0); reflexivity.
Qed.

End HookRuns.

Section RequestsFacts.

Variable w : World.

Lemma post_commit_requests :
  requests (trace (PostCommit.script w)) =
  if PostCommit.ineligible w || is_empty (PostCommit.JIRA_KEY w)
  then [] else [PostCommit.delivery w].
Proof.
  destruct (PostCommit.ineligible w) eqn:Hel.
  - now rewrite (post_commit_skips w Hel).
  - destruct (PostCommit.JIRA_KEY w) as [|c key] eqn:Ek.
    + now rewrite (post_commit_no_key w Ek).
    + rewrite (post_commit_delivers w Hel) by (rewrite Ek; discriminate).
      cbv zeta. rewrite Ek.
      now destruct (http_code (network w (PostCommit.delivery w)) =? 200).
Qed.

Lemma git_hook_requests :
  requests (trace (GitHook.script w)) =
  if is_empty (GitHook.JIRA_KEY w) then [] else [GitHook.delivery w].
Proof.
  destruct (GitHook.JIRA_KEY w) as [|c key] eqn:Ek.
  - now destruct (git_hook_no_key w Ek).
  - rewrite (git_hook_delivers w) by (rewrite Ek; discriminate).
    cbv zeta. rewrite Ek.
    now destruct (curl_exit (network w (GitHook.delivery w)) =? 0).
Qed.

Lemma post_commit_exit : exit_status (PostCommit.script w) = Some 0.
Proof.
  destruct (PostCommit.ineligible w) eqn:Hel.
  - now rewrite (post_commit_skips w Hel).
  - destruct (PostCommit.JIRA_KEY w) as [|c key] eqn:Ek.
    + now rewrite (post_commit_no_key w Ek).
    + rewrite (post_commit_delivers w Hel) by (rewrite Ek; discriminate).
      reflexivity.
Qed.

Lemma git_hook_exit : exit_status (GitHook.script w) = Some 0.
Proof.
  destruct (GitHook.JIRA_KEY w) as [|c key] eqn:Ek.
  - now destruct (git_hook_no_key w Ek).
  - rewrite (git_hook_delivers w) by (rewrite Ek; discriminate). reflexivity.
Qed.

Lemma str_eqb_eq (a b : str) : str_eqb a b = true <-> a = b.
Proof.
  revert b. induction a as [|x a IH]; intros [|y b]; simpl;
    try (split; [discriminate|discriminate]); [tauto|].
  rewrite andb_true_iff, Ascii.eqb_eq, IH. split.
  - now intros [-> ->].
  - now intros [= -> ->].
Qed.

(** The guard of [post-commit-hook.sh]: nothing is written, nothing is
    sent, and the hook ends at once with status 0. *)
Lemma post_commit_guard :
  PostCommit.BRANCH_NAME w = lit "HEAD"
  \/ is_file w (lit ".git/MERGE_HEAD") = true
  \/ is_file w (lit ".git/rebase-apply/applying") = true ->
  PostCommit.script w = ([], Exit 0).
Proof.
  intros H. apply post_commit_skips. unfold PostCommit.ineligible.
  destruct H as [H|[H|H]].
  - apply str_eqb_eq in H. now rewrite H.
  - rewrite H. apply orb_true_iff. left. apply orb_true_r.
  - rewrite H. apply orb_true_r.
Qed.

(** The time limits of [post-commit-hook.sh]. *)
Lemma post_commit_timeouts (r : request) :
  In r (requests (trace (PostCommit.script w))) ->
  connect_timeout r = Some 5 /\ max_time r = Some 10.
Proof.
  rewrite post_commit_requests.
  destruct (PostCommit.ineligible w || is_empty (PostCommit.JIRA_KEY w));
    [contradiction|].
  intros [<-|[]]. now split.
Qed.


End RequestsFacts.

(** ** An occurrence with no other digit around it *)

Section LoneOccurrence.

Lemma nth_error_mid {A} (pre t post : list A) (j : nat) :
  j < length t ->
  nth_error (pre ++ t ++ post) (length pre + j) = nth_error t j.
Proof.
  intros Hj. rewrite nth_error_app2 by lia.
  replace (length pre + j - length pre) with j by lia.
  now rewrite nth_error_app1.
Qed.

Lemma digit_free_nth (a : str) (j : nat) (c : ascii) :
  existsb is_digit a = false -> nth_error a j = Some c -> is_digit c = false.
Proof.
  intros Ha Hc. apply nth_error_In in Hc.
  destruct (is_digit c) eqn:E; [|reflexivity].
  assert (existsb is_digit a = true) by (apply existsb_exists; eauto).
  congruence.
Qed.

Lemma upper_digit_free (k : str) :
  forallb is_upper k = true -> existsb is_digit k = false.
Proof.
  induction k as [|c k IH]; [reflexivity|]. simpl. intros H.
  apply andb_true_iff in H. destruct H as [Hc Hk].
  now rewrite (upper_not_digit c Hc), (IH Hk).
Qed.

(** Between texts without digits, the occurrence of a key without digits
    is the one token of the branch name. *)
Lemma lone_occurrence (k pre ds post : str) :
  existsb is_digit k = false ->
  ds <> [] -> forallb is_digit ds = true ->
  existsb is_digit pre = false -> existsb is_digit post = false ->
  only_token (key_token k) (pre ++ (k ++ "-"%char :: ds) ++ post)
             pre (k ++ "-"%char :: ds) post.
Proof.
  intros Hk Hne Hds Hpre Hpost. split; [reflexivity|]. split.
  { exists ds. auto. }
  intros pre' t' post' E (ds' & Hne' & Hds' & ->).
  set (a := pre ++ k ++ ["-"%char]).
  assert (Ha : existsb is_digit a = false).
  { unfold a. rewrite !existsb_app, Hpre, Hk. reflexivity. }
  assert (Eb : pre ++ (k ++ "-"%char :: ds) ++ post = a ++ ds ++ post).
  { unfold a. rewrite <- !app_assoc. reflexivity. }
  rewrite Eb in E.
  (* where the digits of the branch name are *)
  assert (Hzone : forall j c, nth_error (a ++ ds ++ post) j = Some c ->
                    is_digit c = true -> length a <= j < length a + length ds).
  { intros j c Hc Hd.
    destruct (Nat.lt_ge_cases j (length a)) as [Hlt|Hge].
    - rewrite nth_error_app1 in Hc by lia.
      rewrite (digit_free_nth a j c Ha Hc) in Hd. discriminate.
    - split; [assumption|].
      destruct (Nat.lt_ge_cases j (length a + length ds)) as [|Hpast]; [assumption|].
      rewrite nth_error_app2 in Hc by lia.
      rewrite nth_error_app2 in Hc by lia.
      rewrite (digit_free_nth post _ c Hpost Hc) in Hd. discriminate. }
  (* the other occurrence, read in place *)
  assert (Hdash : nth_error (a ++ ds ++ post) (length pre' + length k)
                  = Some "-"%char).
  { rewrite E, nth_error_mid by (rewrite length_app; simpl; lia).
    rewrite nth_error_app2 by lia. now rewrite Nat.sub_diag. }
  assert (Hdig : forall j, j < length ds' ->
            exists c, nth_error (a ++ ds ++ post) (length pre' + (length k + S j))
                      = Some c /\ is_digit c = true).
  { intros j Hj. rewrite E, nth_error_mid by (rewrite length_app; simpl; lia).
    rewrite nth_error_app2 by lia.
    replace (length k + S j - length k) with (S j) by lia. simpl.
    destruct (nth_error ds' j) as [c|] eqn:Ec.
    - exists c. split; [reflexivity|].
      rewrite forallb_forall in Hds'. apply Hds'. eapply nth_error_In; eauto.
    - apply nth_error_None in Ec. lia. }
  assert (Hl : 0 < length ds') by (destruct ds'; [contradiction|simpl; lia]).
  destruct (Hdig 0 Hl) as (c0 & Hc0 & Hd0).
  destruct (Hdig (length ds' - 1) ltac:(lia)) as (c1 & Hc1 & Hd1).
  apply Hzone in Hc0; [|assumption]. apply Hzone in Hc1; [|assumption].
  assert (Hla : length a = length pre + length k + 1).
  { unfold a. rewrite !length_app. simpl. lia. }
  assert (Hstart : length pre' + length k < length a).
  { destruct (Nat.lt_ge_cases (length pre' + length k) (length a)) as [|Hge];
      [assumption|]. exfalso.
    rewrite nth_error_app2 in Hdash by lia.
    rewrite nth_error_app1 in Hdash by lia.
    apply nth_error_In in Hdash. rewrite forallb_forall in Hds.
    specialize (Hds _ Hdash). discriminate. }
  rewrite !length_app. simpl length. lia.
Qed.

End LoneOccurrence.

(** ** The hooks on given inputs *)

Example any_key_wants_uppercase :
  only_matching any_key_ere (lit "aB-C-12x-9") 0 = [lit "C-12"].
Proof. reflexivity. Qed.

Example search_resumes_after_a_match :
  only_matching (key_ere (lit "1-1")) (lit "1-1-1-1-5") 0 = [lit "1-1-1"].
Proof. reflexivity. Qed.

Example longest_takes_all_digits :
  longest (key_ere (lit "SCRUM")) (lit "SCRUM-123/x") = Some 9.
Proof. reflexivity. Qed.

Example echo_of_an_option : echo_stdout (lit "-n") = [] /\ echo_stdout (lit "-e") = [nl].
Proof. split; reflexivity. Qed.

Example status_line_is_padded : pad3 7 = lit "007" /\ pad3 200 = lit "200".
Proof. split; reflexivity. Qed.

Example status_line_is_read :
  test_eq (lit "200") 200 = 0 /\ test_eq (lit "000") 200 = 1 /\ test_eq [] 200 = 2.
Proof. repeat split. Qed.

Example post_commit_on_success :
  echoed (trace (PostCommit.script fix_branch)) =
  [ lit "Git Hook: Updating Jira card SCRUM-25 for branch 'feature/SCRUM-25-fix'";
    lit "✓ Successfully updated Jira card SCRUM-25" ].
Proof. vm_compute. reflexivity. Qed.

Example post_commit_when_refused :
  echoed (trace (PostCommit.script tracker_down)) =
  [ lit "Git Hook: Updating Jira card SCRUM-25 for branch 'feature/SCRUM-25'";
    lit "✗ Failed to update Jira card SCRUM-25 (HTTP 000)";
    lit "Response: " ].
Proof. vm_compute. reflexivity. Qed.

Example git_hook_when_refused :
  echoed (trace (GitHook.script tracker_down)) =
  [ lit "\033[1;33mGit Hook: Updating Jira card for branch 'feature/SCRUM-25'\033[0m";
    lit "\033[1;33mFound Jira key: SCRUM-25\033[0m";
    lit "\033[0;31mFailed to update Jira card SCRUM-25\033[0m";
    lit "Make sure the backend server is running on http://localhost:8000/api/v1" ].
Proof. vm_compute. reflexivity. Qed.

Example detached_head_is_skipped :
  PostCommit.script detached = ([], Exit 0) /\
  requests (trace (GitHook.script detached)) = [].
Proof. split; vm_compute; reflexivity. Qed.

Example git_hook_without_key :
  echoed (trace (GitHook.script cleanup_branch)) =
  [ lit "\033[1;33mGit Hook: Updating Jira card for branch 'chore/cleanup'\033[0m";
    lit "\033[1;33mNo Jira key found in branch name 'chore/cleanup'\033[0m";
    lit "Branch name should contain a Jira key like SCRUM-25";
    lit "Examples: feature/SCRUM-25, bugfix/SCRUM-123, SCRUM-456" ].
Proof. vm_compute. reflexivity. Qed.

(** ** The body of the request *)

Section BodyFacts.

(** The body byte by byte: the branch name and the action stand between
    double quotes as they are. *)
Lemma payload_text (b a : str) :
  payload b a
  = lit "{" ++ dquote :: lit "branch_name" ++ dquote :: lit ": "
    ++ dquote :: b ++ dquote :: lit ", "
    ++ dquote :: lit "git_action" ++ dquote :: lit ": "
    ++ dquote :: a ++ dquote :: lit "}".
Proof.
  unfold payload, quoted. cbn [app]. repeat rewrite <- app_assoc. reflexivity.
Qed.

Lemma string_rest_plain (s rest : str) :
  Json.plain s = true -> Json.string_rest (s ++ dquote :: rest) = Some (s, rest).
Proof.
  induction s as [|c s IH]; intros H.
  - reflexivity.
  - cbn [Json.plain forallb] in H. apply andb_true_iff in H. destruct H as [Hc Hs].
    unfold Json.unescaped in Hc.
    apply andb_true_iff in Hc. destruct Hc as [Hc H32].
    apply andb_true_iff in Hc. destruct Hc as [Hq Hb].
    apply negb_true_iff in Hq, Hb.
    cbn [app Json.string_rest]. rewrite Hq, Hb, H32, (IH Hs). reflexivity.
Qed.

Lemma string_at_quoted (x rest : str) :
  Json.plain x = true ->
  Json.string_at (dquote :: x ++ dquote :: rest) = Some (x, rest).
Proof. intros H. exact (string_rest_plain x rest H). Qed.

Lemma string_at_space (s : str) :
  Json.string_at (" "%char :: s) = Json.string_at s.
Proof. reflexivity. Qed.

(** A member written as the hooks write it, [NAME: VALUE] with both in
    quotes, and what follows it. *)
Lemma member_read (fuel : nat) (name value rest : str) :
  Json.plain name = true -> Json.plain value = true ->
  Json.members (S fuel)
    (dquote :: name ++ dquote :: lit ": " ++ dquote :: value ++ dquote :: rest)
  = match Json.skip_ws rest with
    | c :: s =>
        if Ascii.eqb c ","
        then option_map (cons (name, value)) (Json.members fuel s)
        else if Ascii.eqb c "}"
             then if is_empty (Json.skip_ws s) then Some [(name, value)] else None
             else None
    | [] => None
    end.
Proof.
  intros Hn Hv. cbn [Json.members].
  rewrite (string_at_quoted name _ Hn).
  change (Json.expect ":" (lit ": " ++ dquote :: value ++ dquote :: rest))
    with (Some (" "%char :: dquote :: value ++ dquote :: rest)).
  cbv beta iota.
  rewrite string_at_space, (string_at_quoted value _ Hv). reflexivity.
Qed.

Lemma payload_read (b a : str) :
  Json.plain b = true -> Json.plain a = true ->
  Json.object (payload b a) = Some [(lit "branch_name", b); (lit "git_action", a)].
Proof.
  intros Hb Ha. rewrite payload_text. unfold Json.object.
  change (Json.expect "{" (lit "{" ++ ?s)) with (Some s).
  cbv beta iota.
  change (Json.expect "}" (dquote :: ?s)) with (@None str).
  cbv beta iota.
  change (length (lit "{" ++ dquote :: ?s)) with (S (S (length s))).
  rewrite (member_read _ (lit "branch_name") b _ eq_refl Hb).
  change (Json.skip_ws (lit ", " ++ ?s)) with ("," :: " " :: s)%char.
  cbv beta iota.
  change (Ascii.eqb "," ",") with true. cbv beta iota.
  change (length (lit "branch_name" ++ ?s)) with (S (length (skipn 1 (lit "branch_name") ++ s))).
  change (Json.members (S ?n) (" "%char :: ?s)) with (Json.members (S n) s).
  rewrite (member_read _ (lit "git_action") a _ eq_refl Ha).
  reflexivity.
Qed.

(** The request of each hook, for a branch name that needs no escaping:
    one POST whose body reads as exactly the two fields, [git_action]
    being the constant of the script. *)
Lemma delivery_carries_fields (w : World) (r : request) :
  Json.plain (PostCommit.BRANCH_NAME w) = true ->
  (In r (requests (trace (PostCommit.script w))) ->
   requests (trace (PostCommit.script w)) = [r] /\
   method r = lit "POST" /\
   url r = PostCommit.API_BASE_URL w ++ lit "/git-hooks/update-from-branch" /\
   headers r = [lit "Content-Type: application/json"] /\
   Json.object (data r)
   = Some [(lit "branch_name", PostCommit.BRANCH_NAME w);
           (lit "git_action", lit "commit")]) /\
  (In r (requests (trace (GitHook.script w))) ->
   requests (trace (GitHook.script w)) = [r] /\
   method r = lit "POST" /\
   url r = lit "http://localhost:8000/api/v1/git-hooks/update-from-branch" /\
   headers r = [lit "Content-Type: application/json"] /\
   Json.object (data r)
   = Some [(lit "branch_name", GitHook.BRANCH_NAME w);
           (lit "git_action", lit "push")]).
Proof.
  intros Hplain. split.
  - rewrite post_commit_requests.
    destruct (PostCommit.ineligible w || is_empty (PostCommit.JIRA_KEY w));
      [contradiction|].
    intros [<-|[]]. repeat split.
    cbn [data PostCommit.delivery]. now apply payload_read.
  - rewrite git_hook_requests.
    destruct (is_empty (GitHook.JIRA_KEY w)); [contradiction|].
    intros [<-|[]]. repeat split.
    cbn [data GitHook.delivery]. now apply payload_read.
Qed.

End BodyFacts.

(** * The claims *)

(** C1. Whatever the branch name, the configuration and the outcome of
    the delivery (no key found, ineligible state, HTTP 200, another
    status, a transport failure or a timeout), each of the two hooks ends
    with exit status 0. *)
Theorem relay_exit_status_zero (w : World) :
  exit_status (PostCommit.script w) = Some 0 /\
  exit_status (GitHook.script w) = Some 0.
Proof. split; [apply post_commit_exit|apply git_hook_exit]. Qed.

(** C2, at the input where [git-hook.sh] departs from it.  A merge is
    under way on [feature/SCRUM-25]: [post-commit-hook.sh] stops at its
    guard without a word and without a request, and [git-hook.sh], which
    has no guard, sends its request. *)
Theorem git_hook_delivers_during_merge :
  is_file merging (lit ".git/MERGE_HEAD") = true /\
  GitHook.BRANCH_NAME merging = lit "feature/SCRUM-25" /\
  PostCommit.script merging = ([], Exit 0) /\
  requests (trace (GitHook.script merging)) = [GitHook.delivery merging] /\
  url (GitHook.delivery merging)
  = lit "http://localhost:8000/api/v1/git-hooks/update-from-branch".
Proof. repeat split; vm_compute; reflexivity. Qed.

(** C3, as amended.  On a branch name of one line: in
    [post-commit-hook.sh] the prefix is the value of [SCRUM_PROJECT_KEY],
    [SCRUM] when the variable is not set, and [git-hook.sh] takes any run
    of uppercase letters as the prefix; a branch name that holds no token
    [PREFIX-DIGITS] yields the empty key, and one that holds one token
    yields that token; [feature/SCRUM-25-fix] with the prefix [SCRUM]
    yields [SCRUM-25]. *)
Theorem key_extraction (w : World) (b : str) :
  PostCommit.BRANCH_NAME w = b -> one_line b = true ->
  (env w (lit "SCRUM_PROJECT_KEY") = None ->
   PostCommit.PROJECT_KEY w = lit "SCRUM") /\
  (plain_key (PostCommit.PROJECT_KEY w) = true ->
   (no_token (key_token (PostCommit.PROJECT_KEY w)) b ->
    PostCommit.JIRA_KEY w = []) /\
   (forall pre t post,
      only_token (key_token (PostCommit.PROJECT_KEY w)) b pre t post ->
      PostCommit.JIRA_KEY w = t)) /\
  (no_token any_key_token b -> GitHook.JIRA_KEY w = []) /\
  (forall pre t post,
     only_token any_key_token b pre t post -> GitHook.JIRA_KEY w = t) /\
  (b = lit "feature/SCRUM-25-fix" -> PostCommit.PROJECT_KEY w = lit "SCRUM" ->
   PostCommit.JIRA_KEY w = lit "SCRUM-25").
Proof.
  intros Hb Hline.
  assert (Hnul : no_nul b = true).
  { rewrite <- Hb. apply branch_no_nul. }
  assert (Hgit : GitHook.JIRA_KEY w
                 = capture (grep_oE any_key_ere (echo_stdout b))).
  { unfold GitHook.JIRA_KEY.
    change (GitHook.BRANCH_NAME w) with (PostCommit.BRANCH_NAME w).
    now rewrite Hb. }
  split; [|split; [|split; [|split]]].
  - intros He. unfold PostCommit.PROJECT_KEY. now rewrite He.
  - intros Hplain.
    assert (Hpost : PostCommit.JIRA_KEY w
                    = capture (grep_oE (key_ere (PostCommit.PROJECT_KEY w))
                                       (echo_stdout b))).
    { unfold PostCommit.JIRA_KEY, PostCommit.grep_key. now rewrite Hplain, Hb. }
    rewrite Hpost. split.
    + apply (key_of_no_token (key_ere (PostCommit.PROJECT_KEY w))
               (key_token (PostCommit.PROJECT_KEY w))
               (matches_key_ere (PostCommit.PROJECT_KEY w)) b Hline).
    + intros pre t post.
      apply (key_of_only_token (key_ere (PostCommit.PROJECT_KEY w))
               (key_token (PostCommit.PROJECT_KEY w))
               (matches_key_ere (PostCommit.PROJECT_KEY w))
               (key_token_nonempty (PostCommit.PROJECT_KEY w))
               (key_token_digit (PostCommit.PROJECT_KEY w))
               b pre t post Hline Hnul).
  - rewrite Hgit.
    apply (key_of_no_token any_key_ere any_key_token matches_any_key_ere
             b Hline).
  - intros pre t post. rewrite Hgit.
    apply (key_of_only_token any_key_ere any_key_token matches_any_key_ere
             any_key_token_nonempty any_key_token_digit b pre t post Hline
             Hnul).
  - intros Eb Ek. unfold PostCommit.JIRA_KEY. rewrite Hb, Ek, Eb.
    vm_compute. reflexivity.
Qed.

Lemma key_extraction_witness :
  PostCommit.JIRA_KEY fix_branch = lit "SCRUM-25" /\
  GitHook.JIRA_KEY fix_branch = lit "SCRUM-25" /\
  PostCommit.JIRA_KEY cleanup_branch = [] /\
  GitHook.JIRA_KEY cleanup_branch = [].
Proof.
  destruct (key_extraction fix_branch (lit "feature/SCRUM-25-fix")
              eq_refl eq_refl) as (_ & Hpost & _ & Hgit & _).
  destruct (key_extraction cleanup_branch (lit "chore/cleanup")
              eq_refl eq_refl) as (_ & Hpost' & Hgit' & _).
  split; [|split; [|split]].
  - apply (proj2 (Hpost eq_refl) (lit "feature/") (lit "SCRUM-25") (lit "-fix")).
    apply (matches_within_only (key_ere (lit "SCRUM")) (key_token (lit "SCRUM"))
             (lit "feature/SCRUM-25-fix") (lit "feature/") (lit "SCRUM-25")
             (lit "-fix") (matches_key_ere (lit "SCRUM"))
             (key_token_nonempty (lit "SCRUM")) eq_refl).
    + exists (lit "25"). repeat split. discriminate.
    + vm_compute. reflexivity.
  - apply (Hgit (lit "feature/") (lit "SCRUM-25") (lit "-fix")).
    apply (matches_within_only any_key_ere any_key_token
             (lit "feature/SCRUM-25-fix") (lit "feature/") (lit "SCRUM-25")
             (lit "-fix") matches_any_key_ere any_key_token_nonempty eq_refl).
    + exists (lit "SCRUM"). repeat split; [discriminate|].
      exists (lit "25"). repeat split. discriminate.
    + vm_compute. reflexivity.
  - apply (proj1 (Hpost' eq_refl)).
    apply no_digit_no_token; [apply key_token_digit|reflexivity].
  - apply Hgit'.
    apply no_digit_no_token; [apply any_key_token_digit|reflexivity].
Defined.

(** C3 as it is stated fails where no prefix is configured: the branch
    [feature/ABC-12] holds the token [ABC-12] of an uppercase prefix, and
    [post-commit-hook.sh], which then takes [SCRUM] as the prefix, yields
    no key. *)
Lemma unset_prefix_misses_other_projects :
  env other_project (lit "SCRUM_PROJECT_KEY") = None /\
  PostCommit.BRANCH_NAME other_project = lit "feature/" ++ lit "ABC-12" ++ [] /\
  any_key_token (lit "ABC-12") /\
  PostCommit.JIRA_KEY other_project = [] /\
  PostCommit.JIRA_KEY other_project <> lit "ABC-12".
Proof.
  repeat split; try (vm_compute; reflexivity).
  - exists (lit "ABC"). repeat split; [discriminate|].
    exists (lit "12"). repeat split. discriminate.
  - vm_compute. discriminate.
Qed.

(** C4, at a branch name that holds two keys.  [grep -o] prints every
    match, so the key of both hooks is the two tokens, one per line, and
    it is that text the hook announces. *)
Theorem every_match_is_returned :
  PostCommit.BRANCH_NAME two_keys = lit "feature/SCRUM-12-follows-SCRUM-7" /\
  PostCommit.JIRA_KEY two_keys = lit "SCRUM-12" ++ nl :: lit "SCRUM-7" /\
  GitHook.JIRA_KEY two_keys = lit "SCRUM-12" ++ nl :: lit "SCRUM-7" /\
  lines (PostCommit.JIRA_KEY two_keys) = [lit "SCRUM-12"; lit "SCRUM-7"] /\
  PostCommit.JIRA_KEY two_keys <> lit "SCRUM-12" /\
  nth 0 (echoed (trace (PostCommit.script two_keys))) [] =
  lit "Git Hook: Updating Jira card SCRUM-12" ++ nl
  :: lit "SCRUM-7 for branch 'feature/SCRUM-12-follows-SCRUM-7'".
Proof.
  repeat split; try (vm_compute; reflexivity). vm_compute. discriminate.
Qed.

(** C5, at the input where [git-hook.sh] departs from it.  The tracker
    answers 500 and the transfer itself completes: [git-hook.sh], which
    looks at the exit status of [curl] alone, announces a success, where
    [post-commit-hook.sh] reads the status and announces the failure with
    the key, the status and the body. *)
Theorem git_hook_reports_success_on_error :
  network tracker_error (GitHook.delivery tracker_error)
  = {| curl_exit := 0; http_code := 500; body := lit "Internal Server Error" |} /\
  echoed (trace (GitHook.script tracker_error)) =
  [ lit "\033[1;33mGit Hook: Updating Jira card for branch 'feature/SCRUM-25'\033[0m";
    lit "\033[1;33mFound Jira key: SCRUM-25\033[0m";
    lit "\033[0;32mSuccessfully updated Jira card SCRUM-25\033[0m";
    lit "Response: Internal Server Error" ] /\
  echoed (trace (PostCommit.script tracker_error)) =
  [ lit "Git Hook: Updating Jira card SCRUM-25 for branch 'feature/SCRUM-25'";
    lit "✗ Failed to update Jira card SCRUM-25 (HTTP 500)";
    lit "Response: Internal Server Error" ].
Proof. repeat split; vm_compute; reflexivity. Qed.

(** C6, at the input where [git-hook.sh] departs from it.  On a branch
    that names an issue [git-hook.sh] calls [curl] with neither
    [--connect-timeout] nor [--max-time], where [post-commit-hook.sh]
    gives 5 and 10 seconds. *)
Theorem git_hook_sets_no_time_limit :
  requests (trace (GitHook.script fix_branch)) = [GitHook.delivery fix_branch] /\
  connect_timeout (GitHook.delivery fix_branch) = None /\
  max_time (GitHook.delivery fix_branch) = None /\
  requests (trace (PostCommit.script fix_branch)) = [PostCommit.delivery fix_branch] /\
  connect_timeout (PostCommit.delivery fix_branch) = Some 5 /\
  max_time (PostCommit.delivery fix_branch) = Some 10.
Proof. repeat split; vm_compute; reflexivity. Qed.

(** C7. When the key comes out empty, each hook sends no request and ends
    with status 0; so it is on the branch [chore/cleanup], in
    [git-hook.sh] and, for a prefix without operators, in
    [post-commit-hook.sh]. *)
Theorem no_key_no_call (w : World) :
  (PostCommit.JIRA_KEY w = [] ->
   requests (trace (PostCommit.script w)) = [] /\
   exit_status (PostCommit.script w) = Some 0) /\
  (GitHook.JIRA_KEY w = [] ->
   requests (trace (GitHook.script w)) = [] /\
   exit_status (GitHook.script w) = Some 0) /\
  (PostCommit.BRANCH_NAME w = lit "chore/cleanup" ->
   (GitHook.JIRA_KEY w = [] /\
    requests (trace (GitHook.script w)) = [] /\
    exit_status (GitHook.script w) = Some 0) /\
   (plain_key (PostCommit.PROJECT_KEY w) = true ->
    PostCommit.JIRA_KEY w = [] /\
    requests (trace (PostCommit.script w)) = [] /\
    exit_status (PostCommit.script w) = Some 0)).
Proof.
  split; [|split].
  - intros H. rewrite (post_commit_no_key w H). now split.
  - apply git_hook_no_key.
  - intros Hb.
    assert (Hgit : GitHook.JIRA_KEY w = []).
    { unfold GitHook.JIRA_KEY.
      change (GitHook.BRANCH_NAME w) with (PostCommit.BRANCH_NAME w).
      rewrite Hb. vm_compute. reflexivity. }
    split.
    + split; [exact Hgit|]. now apply git_hook_no_key.
    + intros Hk.
      assert (Hpost : PostCommit.JIRA_KEY w = []).
      { unfold PostCommit.JIRA_KEY, PostCommit.grep_key. rewrite Hk, Hb.
        apply (key_of_no_token (key_ere (PostCommit.PROJECT_KEY w))
                 (key_token (PostCommit.PROJECT_KEY w))
                 (matches_key_ere (PostCommit.PROJECT_KEY w))
                 (lit "chore/cleanup") eq_refl).
        apply no_digit_no_token; [apply key_token_digit|reflexivity]. }
      split; [exact Hpost|]. rewrite (post_commit_no_key w Hpost). now split.
Qed.

Lemma no_key_no_call_witness :
  requests (trace (PostCommit.script cleanup_branch)) = [] /\
  exit_status (PostCommit.script cleanup_branch) = Some 0 /\
  requests (trace (GitHook.script cleanup_branch)) = [] /\
  exit_status (GitHook.script cleanup_branch) = Some 0.
Proof.
  destruct (no_key_no_call cleanup_branch) as (Hpost & Hgit & Hcleanup).
  destruct (Hcleanup eq_refl) as [(Hk & _) Hplain].
  destruct (Hplain eq_refl) as (Hk' & _).
  destruct (Hpost Hk') as [H1 H2]. destruct (Hgit Hk) as [H3 H4].
  exact (conj H1 (conj H2 (conj H3 H4))).
Defined.

(** C8, at the inputs where the hooks depart from it.  On the branch
    whose name is [SCRUM-1], a double quote and [x], both hooks find the
    key [SCRUM-1] and send their POST,
    announced as [application/json], with the branch name pasted between
    the quotes as it is: the quote in the name ends the string early and
    the body is no JSON text, so that it carries no field at all.  And
    [git-hook.sh], run as the post-commit hook its header says it can be,
    sends [push] from the commit point of the lifecycle. *)
Theorem body_departs_from_the_fields :
  PostCommit.BRANCH_NAME quoted_branch = lit "SCRUM-1" ++ dquote :: lit "x" /\
  requests (trace (PostCommit.script quoted_branch))
  = [PostCommit.delivery quoted_branch] /\
  method (PostCommit.delivery quoted_branch) = lit "POST" /\
  headers (PostCommit.delivery quoted_branch)
  = [lit "Content-Type: application/json"] /\
  data (PostCommit.delivery quoted_branch)
  = lit "{" ++ dquote :: lit "branch_name" ++ dquote :: lit ": "
    ++ dquote :: lit "SCRUM-1" ++ dquote :: lit "x" ++ dquote :: lit ", "
    ++ dquote :: lit "git_action" ++ dquote :: lit ": "
    ++ dquote :: lit "commit" ++ dquote :: lit "}" /\
  Json.object (data (PostCommit.delivery quoted_branch)) = None /\
  requests (trace (GitHook.script quoted_branch))
  = [GitHook.delivery quoted_branch] /\
  Json.object (data (GitHook.delivery quoted_branch)) = None /\
  requests (trace (run_at AtCommit GitHook.script fix_branch))
  = [GitHook.delivery fix_branch] /\
  Json.object (data (GitHook.delivery fix_branch))
  = Some [(lit "branch_name", lit "feature/SCRUM-25-fix");
          (lit "git_action", lit "push")] /\
  action_of AtCommit = lit "commit" /\
  lit "push" <> action_of AtCommit.
Proof.
  repeat split; try (vm_compute; reflexivity).
  vm_compute. discriminate.
Qed.

(** C9, as amended.  A variable that is not set (or is empty) is no
    error.  In [post-commit-hook.sh] the API base URL is then
    [http://localhost:8000/api/v1] and the prefix is [SCRUM], so that only
    the tokens [SCRUM-DIGITS] are keys; [git-hook.sh] reads no variable:
    it runs the same under any environment, posts to the same default
    URL and takes any run of uppercase letters as the prefix.  Both end
    with status 0. *)
Theorem environment_defaults (w : World) :
  (env w (lit "SCRUM_API_URL") = None \/ env w (lit "SCRUM_API_URL") = Some [] ->
   PostCommit.API_BASE_URL w = lit "http://localhost:8000/api/v1" /\
   forall r, In r (requests (trace (PostCommit.script w))) ->
             url r = lit "http://localhost:8000/api/v1/git-hooks/update-from-branch") /\
  (env w (lit "SCRUM_PROJECT_KEY") = None
   \/ env w (lit "SCRUM_PROJECT_KEY") = Some [] ->
   PostCommit.PROJECT_KEY w = lit "SCRUM" /\
   (one_line (PostCommit.BRANCH_NAME w) = true ->
    (no_token (key_token (lit "SCRUM")) (PostCommit.BRANCH_NAME w) ->
     PostCommit.JIRA_KEY w = []) /\
    (forall pre t post,
       only_token (key_token (lit "SCRUM")) (PostCommit.BRANCH_NAME w) pre t post ->
       PostCommit.JIRA_KEY w = t))) /\
  (forall e, GitHook.script (with_env w e) = GitHook.script w) /\
  (forall r, In r (requests (trace (GitHook.script w))) ->
             url r = lit "http://localhost:8000/api/v1/git-hooks/update-from-branch") /\
  (one_line (GitHook.BRANCH_NAME w) = true ->
   forall pre t post,
     only_token any_key_token (GitHook.BRANCH_NAME w) pre t post ->
     GitHook.JIRA_KEY w = t) /\
  exit_status (PostCommit.script w) = Some 0 /\
  exit_status (GitHook.script w) = Some 0.
Proof.
  split; [|split; [|split; [|split; [|split; [|split]]]]].
  - intros Hurl.
    assert (E : PostCommit.API_BASE_URL w = lit "http://localhost:8000/api/v1").
    { unfold PostCommit.API_BASE_URL. now destruct Hurl as [-> | ->]. }
    split; [exact E|]. intros r. rewrite post_commit_requests.
    destruct (PostCommit.ineligible w || is_empty (PostCommit.JIRA_KEY w));
      [contradiction|].
    intros [<-|[]]. cbn [url PostCommit.delivery]. now rewrite E.
  - intros Hkey.
    assert (E : PostCommit.PROJECT_KEY w = lit "SCRUM").
    { unfold PostCommit.PROJECT_KEY. now destruct Hkey as [-> | ->]. }
    split; [exact E|]. intros Hline.
    unfold PostCommit.JIRA_KEY, PostCommit.grep_key. rewrite E.
    change (plain_key (lit "SCRUM")) with true. cbv iota. split.
    + apply (key_of_no_token (key_ere (lit "SCRUM")) (key_token (lit "SCRUM"))
               (matches_key_ere (lit "SCRUM")) _ Hline).
    + intros pre t post.
      apply (key_of_only_token (key_ere (lit "SCRUM")) (key_token (lit "SCRUM"))
               (matches_key_ere (lit "SCRUM")) (key_token_nonempty (lit "SCRUM"))
               (key_token_digit (lit "SCRUM")) _ pre t post Hline
               (branch_no_nul w)).
  - intros e. reflexivity.
  - intros r. rewrite git_hook_requests.
    destruct (is_empty (GitHook.JIRA_KEY w)); [contradiction|].
    intros [<-|[]]. reflexivity.
  - intros Hline pre t post.
    apply (key_of_only_token any_key_ere any_key_token matches_any_key_ere
             any_key_token_nonempty any_key_token_digit _ pre t post Hline
             (branch_no_nul w)).
  - apply post_commit_exit.
  - apply git_hook_exit.
Qed.

Lemma environment_defaults_witness :
  PostCommit.API_BASE_URL another_project = lit "http://localhost:8000/api/v1" /\
  PostCommit.PROJECT_KEY another_project = lit "SCRUM" /\
  PostCommit.JIRA_KEY another_project = [] /\
  GitHook.JIRA_KEY another_project = lit "PROJ-7" /\
  PostCommit.JIRA_KEY fix_branch = lit "SCRUM-25".
Proof.
  destruct (environment_defaults another_project)
    as (Hurl & Hkey & _ & _ & Hgit & _).
  destruct (environment_defaults fix_branch) as (_ & Hkey' & _).
  destruct (Hurl (or_introl eq_refl)) as [H1 _].
  destruct (Hkey (or_introl eq_refl)) as [H2 Hscrum].
  destruct (Hkey' (or_introl eq_refl)) as [_ Hscrum'].
  split; [exact H1|]. split; [exact H2|]. split; [|split].
  - apply (proj1 (Hscrum eq_refl)).
    apply (no_match_no_token (key_ere (lit "SCRUM")) (key_token (lit "SCRUM"))
             (lit "bugfix/PROJ-7") (matches_key_ere (lit "SCRUM"))
             (key_token_nonempty (lit "SCRUM"))).
    vm_compute. reflexivity.
  - apply (Hgit eq_refl (lit "bugfix/") (lit "PROJ-7") []).
    apply (matches_within_only any_key_ere any_key_token
             (lit "bugfix/PROJ-7") (lit "bugfix/") (lit "PROJ-7") []
             matches_any_key_ere any_key_token_nonempty eq_refl).
    + exists (lit "PROJ"). repeat split; [discriminate|].
      exists (lit "7"). repeat split. discriminate.
    + vm_compute. reflexivity.
  - apply (proj2 (Hscrum' eq_refl) (lit "feature/") (lit "SCRUM-25") (lit "-fix")).
    apply (matches_within_only (key_ere (lit "SCRUM")) (key_token (lit "SCRUM"))
             (lit "feature/SCRUM-25-fix") (lit "feature/") (lit "SCRUM-25")
             (lit "-fix") (matches_key_ere (lit "SCRUM"))
             (key_token_nonempty (lit "SCRUM")) eq_refl).
    + exists (lit "25"). repeat split. discriminate.
    + vm_compute. reflexivity.
Defined.

(** C9 as it is stated fails on the prefix: with [SCRUM_PROJECT_KEY] not
    set, [post-commit-hook.sh] does not accept the uppercase prefix of
    [bugfix/PROJ-7]; it finds no key and sends nothing. *)
Lemma unset_prefix_falls_back_to_scrum :
  env another_project (lit "SCRUM_PROJECT_KEY") = None /\
  PostCommit.BRANCH_NAME another_project = lit "bugfix/" ++ lit "PROJ-7" ++ [] /\
  any_key_token (lit "PROJ-7") /\
  PostCommit.PROJECT_KEY another_project = lit "SCRUM" /\
  PostCommit.JIRA_KEY another_project = [] /\
  requests (trace (PostCommit.script another_project)) = [].
Proof.
  repeat split; try (vm_compute; reflexivity).
  exists (lit "PROJ"). repeat split; [discriminate|].
  exists (lit "7"). repeat split. discriminate.
Qed.

(** C10. With a configured prefix of uppercase letters, the prefix is
    matched wherever it stands: when it ends a longer run of uppercase
    letters just before [-DIGITS], the key [PREFIX-DIGITS] is one of the
    lines of the extracted key, which is therefore not empty; and it is
    the whole of it when the branch name has no other digit.  So
    [MYSCRUM-25] with the prefix [SCRUM] yields [SCRUM-25]. *)
Theorem prefix_matches_inside_uppercase_run
    (w : World) (k pre up ds post : str) :
  PostCommit.PROJECT_KEY w = k -> k <> [] -> forallb is_upper k = true ->
  up <> [] -> forallb is_upper up = true ->
  ds <> [] -> forallb is_digit ds = true -> no_digit_ahead post ->
  PostCommit.BRANCH_NAME w = pre ++ up ++ (k ++ "-"%char :: ds) ++ post ->
  one_line (PostCommit.BRANCH_NAME w) = true ->
  In (k ++ "-"%char :: ds) (lines (PostCommit.JIRA_KEY w)) /\
  PostCommit.JIRA_KEY w <> [] /\
  (existsb is_digit pre = false -> existsb is_digit post = false ->
   PostCommit.JIRA_KEY w = k ++ "-"%char :: ds).
Proof.
  intros Ek Hne Hk Hune Hup Hdne Hds Hahead Eb Hline.
  assert (Hplain : plain_key k = true) by now apply upper_plain_key.
  assert (Hin : In (k ++ "-"%char :: ds) (lines (PostCommit.JIRA_KEY w))).
  { unfold PostCommit.JIRA_KEY, PostCommit.grep_key. rewrite Ek, Hplain.
    rewrite (key_lines (key_ere k) _ Hline (branch_no_nul w)).
    assert (Hd : existsb is_digit (PostCommit.BRANCH_NAME w) = true).
    { rewrite Eb, !existsb_app. destruct ds as [|d ds]; [contradiction|].
      simpl in Hds. apply andb_true_iff in Hds. destruct Hds as [Hd _].
      simpl. rewrite Hd. rewrite !orb_true_r. reflexivity. }
    destruct (echo_option (PostCommit.BRANCH_NAME w)) eqn:Eo.
    { apply echo_option_no_digit in Eo. congruence. }
    rewrite Eb, app_assoc.
    now apply key_ere_occurrence_printed. }
  split; [exact Hin|]. split.
  - intros E. rewrite E in Hin. contradiction.
  - intros Hpre Hpost.
    unfold PostCommit.JIRA_KEY, PostCommit.grep_key. rewrite Ek, Hplain.
    apply (key_of_only_token (key_ere k) (key_token k) (matches_key_ere k)
             (key_token_nonempty k) (key_token_digit k)
             _ (pre ++ up) (k ++ "-"%char :: ds) post Hline
             (branch_no_nul w)).
    rewrite Eb, app_assoc. apply lone_occurrence; auto.
    + now apply upper_digit_free.
    + rewrite existsb_app, Hpre. now apply upper_digit_free.
Qed.

Lemma prefix_matches_inside_uppercase_run_witness :
  In (lit "SCRUM-25") (lines (PostCommit.JIRA_KEY longer_run)) /\
  PostCommit.JIRA_KEY longer_run <> [] /\
  PostCommit.JIRA_KEY longer_run = lit "SCRUM-25".
Proof.
  destruct (prefix_matches_inside_uppercase_run longer_run
              (lit "SCRUM") [] (lit "MY") (lit "25") []) as (H1 & H2 & H3);
    try reflexivity; try discriminate; try exact I.
  exact (conj H1 (conj H2 (H3 eq_refl eq_refl))).
Defined.

(** * Further properties of the hooks *)

(** ** More on [grep -o] *)

Section MoreMatcherFacts.

Variable p : ere.

Lemma longest_covers (s : str) (n : nat) :
  In n (ends p s) -> exists m, longest p s = Some m /\ n <= m.
Proof.
  intros Hin. unfold longest. destruct (ends p s) as [|x xs]; [contradiction|].
  destruct (max_of_list x xs) as [_ Hub]. eauto.
Qed.

(** A match that starts at or after [skip] leaves something printed. *)
Lemma only_matching_some (s : str) (skip i n : nat) :
  skip <= i -> In (S n) (ends p (skipn i s)) -> only_matching p s skip <> [].
Proof.
  revert skip i. induction s as [|c s IH]; intros skip i Hs Hin.
  - rewrite skipn_nil in Hin. apply ends_sound in Hin. simpl in Hin. lia.
  - simpl. destruct skip as [|k].
    + destruct i as [|i].
      * cbn [skipn] in Hin. destruct (longest_covers _ _ Hin) as (m & -> & Hm).
        destruct m as [|m]; [lia|discriminate].
      * cbn [skipn] in Hin.
        destruct (longest p (c :: s)) as [[|m]|]; try discriminate;
          apply (IH 0 i); auto; lia.
    + destruct i as [|i]; [lia|]. cbn [skipn] in Hin. apply (IH k i); auto. lia.
Qed.

(** Whatever is printed is a match that stands in the line. *)
Lemma only_matching_sound (s : str) (skip : nat) (m : str) :
  In m (only_matching p s skip) ->
  matches p m /\ exists pre post, s = pre ++ m ++ post.
Proof.
  revert skip. induction s as [|c s IH]; intros skip Hin; [contradiction|].
  assert (Hrec : forall k, In m (only_matching p s k) ->
            matches p m /\ exists pre post, c :: s = pre ++ m ++ post).
  { intros k Hk. destruct (IH k Hk) as (Hm & pre & post & ->).
    split; [exact Hm|]. now exists (c :: pre), post. }
  simpl in Hin. destruct skip as [|k]; [|now apply (Hrec k)].
  destruct (longest p (c :: s)) as [[|n]|] eqn:E; try now apply (Hrec 0).
  destruct Hin as [<-|Hin]; [|now apply (Hrec n)].
  apply longest_some in E. destruct E as [E _]. apply ends_sound in E.
  destruct E as [_ Hm]. split; [exact Hm|].
  exists [], (skipn (S n) (c :: s)).
  change ([] ++ ?x) with x. symmetry. apply (firstn_skipn (S n) (c :: s)).
Qed.

Lemma key_empty_iff (b : str) :
  one_line b = true -> no_nul b = true ->
  (capture (grep_oE p (echo_stdout b)) = [] <->
   (if echo_option b then [] else only_matching p b 0) = []).
Proof.
  intros Hb Hn. pose proof (key_lines p b Hb Hn) as Hl. split.
  - intros E. now rewrite E in Hl.
  - intros E. rewrite (grep_of_echo p b Hb), E. reflexivity.
Qed.

Variable token : str -> Prop.
Hypothesis token_matches : forall t, token t <-> matches p t.
Hypothesis token_nonempty : forall t, token t -> t <> [].
Hypothesis token_digit : forall t, token t -> existsb is_digit t = true.

(** The key is empty exactly when the branch name holds no token. *)
Lemma key_nonempty_iff_token (b : str) :
  one_line b = true -> no_nul b = true ->
  (capture (grep_oE p (echo_stdout b)) <> [] <->
   exists pre t post, b = pre ++ t ++ post /\ token t).
Proof.
  intros Hb Hn. rewrite (key_empty_iff b Hb Hn). split.
  - intros Hne. destruct (echo_option b); [contradiction|].
    destruct (only_matching p b 0) as [|m ms] eqn:E; [contradiction|].
    destruct (only_matching_sound b 0 m) as (Hm & pre & post & Eb).
    { rewrite E. now left. }
    exists pre, m, post. split; [exact Eb|]. now apply token_matches.
  - intros (pre & t & post & Eb & Ht).
    assert (Hd : existsb is_digit b = true).
    { subst b. rewrite !existsb_app, (token_digit t Ht). apply orb_true_iff.
      right. reflexivity. }
    destruct (echo_option b) eqn:Eo.
    { apply echo_option_no_digit in Eo. congruence. }
    pose proof (token_nonempty t Ht) as Hne.
    destruct t as [|c t']; [contradiction|].
    apply (only_matching_some b 0 (length pre) (length t')); [lia|].
    rewrite Eb, skipn_app, skipn_all, Nat.sub_diag. simpl skipn. simpl app.
    apply ends_complete; [simpl; rewrite length_app; lia|].
    change (S (length t')) with (length (c :: t')).
    change (c :: t' ++ post) with ((c :: t') ++ post).
    rewrite firstn_app, firstn_all, Nat.sub_diag. simpl firstn.
    rewrite app_nil_r. now apply token_matches.
Qed.

(** The check [matches_within], read on the occurrences of a token. *)
Lemma matches_within_bounds (b : str) (lo hi : nat) :
  matches_within p b lo hi = true ->
  forall pre t post, b = pre ++ t ++ post -> token t ->
    lo <= length pre /\ length pre + length t <= hi.
Proof.
  intros Hchk pre t post Hb Ht.
  unfold matches_within in Hchk. rewrite forallb_forall in Hchk.
  assert (Hi : In (length pre) (seq 0 (S (length b)))).
  { apply in_seq. rewrite Hb, length_app. lia. }
  specialize (Hchk _ Hi). rewrite forallb_forall in Hchk.
  assert (Hn : In (length t) (ends p (skipn (length pre) b))).
  { rewrite Hb, skipn_app, skipn_all, Nat.sub_diag. simpl.
    apply ends_complete; [rewrite length_app; lia|].
    rewrite firstn_app, firstn_all, Nat.sub_diag. simpl. rewrite app_nil_r.
    now apply token_matches. }
  specialize (Hchk _ Hn). apply orb_true_iff in Hchk.
  destruct Hchk as [H0|H1].
  - apply Nat.eqb_eq in H0. apply token_nonempty in Ht.
    destruct t; [contradiction|discriminate].
  - apply andb_true_iff in H1. destruct H1 as [Hlo Hhi].
    apply Nat.leb_le in Hlo, Hhi. lia.
Qed.

End MoreMatcherFacts.

(** ** The hooks, beyond the claims *)

(** X1. [post-commit-hook.sh] skips in silence: on a detached HEAD, or
    with [.git/MERGE_HEAD] or [.git/rebase-apply/applying] in place, it
    writes nothing, sends nothing and ends with status 0; and in any
    world it writes something only when it sends its request. *)
Theorem post_commit_skips_in_silence (w : World) :
  (PostCommit.BRANCH_NAME w = lit "HEAD"
   \/ is_file w (lit ".git/MERGE_HEAD") = true
   \/ is_file w (lit ".git/rebase-apply/applying") = true ->
   PostCommit.script w = ([], Exit 0)) /\
  (echoed (trace (PostCommit.script w)) = [] <->
   requests (trace (PostCommit.script w)) = []).
Proof.
  split; [apply post_commit_guard|].
  destruct (PostCommit.ineligible w) eqn:Hel.
  - rewrite (post_commit_skips w Hel). now split.
  - destruct (PostCommit.JIRA_KEY w) as [|c key] eqn:Ek.
    + rewrite (post_commit_no_key w Ek). now split.
    + rewrite (post_commit_delivers w Hel) by (rewrite Ek; discriminate).
      cbv zeta. rewrite Ek.
      destruct (http_code (network w (PostCommit.delivery w)) =? 200);
        split; discriminate.
Qed.

Lemma post_commit_skips_in_silence_witness :
  PostCommit.script merging = ([], Exit 0) /\
  PostCommit.script detached = ([], Exit 0) /\
  requests (trace (PostCommit.script cleanup_branch)) = [].
Proof.
  destruct (post_commit_skips_in_silence merging) as [Hm _].
  destruct (post_commit_skips_in_silence detached) as [Hd _].
  destruct (post_commit_skips_in_silence cleanup_branch) as [_ Hc].
  split; [exact (Hm (or_intror (or_introl eq_refl)))|].
  split; [exact (Hd (or_introl eq_refl))|].
  exact (proj1 Hc eq_refl).
Defined.

(** X2. [post-commit-hook.sh] makes at most one delivery attempt per run,
    and every attempt is a silent [curl] call limited to 5 seconds for the
    connection and 10 seconds in all. *)
Theorem post_commit_one_bounded_attempt (w : World) :
  length (requests (trace (PostCommit.script w))) <= 1 /\
  forall r, In r (requests (trace (PostCommit.script w))) ->
            connect_timeout r = Some 5 /\ max_time r = Some 10 /\
            silent r = true.
Proof.
  rewrite post_commit_requests.
  destruct (PostCommit.ineligible w || is_empty (PostCommit.JIRA_KEY w)).
  - split; [simpl; lia|]. intros r [].
  - split; [simpl; lia|]. intros r [<-|[]]. repeat split.
Qed.

Lemma post_commit_one_bounded_attempt_witness :
  connect_timeout (PostCommit.delivery tracker_down) = Some 5 /\
  max_time (PostCommit.delivery tracker_down) = Some 10.
Proof.
  destruct (post_commit_one_bounded_attempt tracker_down) as [_ H].
  destruct (H (PostCommit.delivery tracker_down) (or_introl eq_refl))
    as (H1 & H2 & _).
  exact (conj H1 H2).
Defined.



(** X4. Once [git-hook.sh] delivers, what it writes is decided by the exit
    status of [curl] alone, whatever the HTTP status: on 0 the success
    line with the key and the body received as the shell holds it,
    without its NUL bytes and without its trailing newlines; otherwise the
    failure line with the key and the hint at the server address. *)
Theorem git_hook_outcome_report (w : World) :
  GitHook.JIRA_KEY w <> [] ->
  let t := network w (GitHook.delivery w) in
  let announced :=
    [ GitHook.YELLOW ++ lit "Git Hook: Updating Jira card for branch '"
      ++ GitHook.BRANCH_NAME w ++ lit "'" ++ GitHook.NC;
      GitHook.YELLOW ++ lit "Found Jira key: " ++ GitHook.JIRA_KEY w
      ++ GitHook.NC ] in
  (curl_exit t = 0 ->
   echoed (trace (GitHook.script w)) =
   announced ++
   [ GitHook.GREEN ++ lit "Successfully updated Jira card "
     ++ GitHook.JIRA_KEY w ++ GitHook.NC;
     lit "Response: " ++ strip_newlines (drop_nul (body t)) ]) /\
  (curl_exit t <> 0 ->
   echoed (trace (GitHook.script w)) =
   announced ++
   [ GitHook.RED ++ lit "Failed to update Jira card "
     ++ GitHook.JIRA_KEY w ++ GitHook.NC;
     lit "Make sure the backend server is running on http://localhost:8000/api/v1" ]).
Proof.
  intros Hkey t announced. rewrite (git_hook_delivers w Hkey). fold t.
  cbv zeta. split; intros H.
  - apply Nat.eqb_eq in H. now rewrite H.
  - apply Nat.eqb_neq in H. now rewrite H.
Qed.

Lemma git_hook_outcome_report_witness :
  echoed (trace (GitHook.script tracker_down)) =
  [ lit "\033[1;33mGit Hook: Updating Jira card for branch 'feature/SCRUM-25'\033[0m";
    lit "\033[1;33mFound Jira key: SCRUM-25\033[0m";
    lit "\033[0;31mFailed to update Jira card SCRUM-25\033[0m";
    lit "Make sure the backend server is running on http://localhost:8000/api/v1" ] /\
  body (network nul_in_body (GitHook.delivery nul_in_body))
  = ["a"; nul; "b"; nl]%char /\
  echoed (trace (GitHook.script nul_in_body)) =
  [ lit "\033[1;33mGit Hook: Updating Jira card for branch 'feature/SCRUM-25'\033[0m";
    lit "\033[1;33mFound Jira key: SCRUM-25\033[0m";
    lit "\033[0;32mSuccessfully updated Jira card SCRUM-25\033[0m";
    lit "Response: ab" ].
Proof.
  split; [|split].
  - refine (proj2 (git_hook_outcome_report tracker_down _) _); discriminate.
  - reflexivity.
  - refine (proj1 (git_hook_outcome_report nul_in_body _) eq_refl). discriminate.
Defined.


(** The round trip of a body of two lines with a NUL byte in the first
    and newlines at its end. *)
Example status_line_of_nul_body :
  let t := {| curl_exit := 0; http_code := 404;
              body := lit "a" ++ nul :: lit "b" ++ nl :: lit "c" ++ [nl; nl] |} in
  let RESPONSE := capture (curl_stdout (PostCommit.delivery fix_branch) t) in
  RESPONSE = lit "ab" ++ nl :: lit "c" ++ [nl; nl; nl] ++ lit "404" /\
  capture (tail_n1 (echo_stdout RESPONSE)) = lit "404" /\
  capture (head_n_minus1 (echo_stdout RESPONSE)) = lit "ab" ++ nl :: lit "c".
Proof. vm_compute. repeat split. Qed.

(** X6. On a branch name of one line and with a project key without
    operators, [post-commit-hook.sh] sends its request exactly when the
    state is eligible and the branch name holds a token [KEY-DIGITS]
    somewhere; in every other case it sends nothing. *)
Theorem post_commit_delivers_iff_token (w : World) :
  one_line (PostCommit.BRANCH_NAME w) = true ->
  plain_key (PostCommit.PROJECT_KEY w) = true ->
  (requests (trace (PostCommit.script w)) = [PostCommit.delivery w] <->
   PostCommit.ineligible w = false /\
   exists pre t post,
     PostCommit.BRANCH_NAME w = pre ++ t ++ post /\
     key_token (PostCommit.PROJECT_KEY w) t) /\
  (requests (trace (PostCommit.script w)) = [] \/
   requests (trace (PostCommit.script w)) = [PostCommit.delivery w]).
Proof.
  intros Hline Hplain.
  pose proof (key_nonempty_iff_token (key_ere (PostCommit.PROJECT_KEY w))
                (key_token (PostCommit.PROJECT_KEY w))
                (matches_key_ere (PostCommit.PROJECT_KEY w))
                (key_token_nonempty (PostCommit.PROJECT_KEY w))
                (key_token_digit (PostCommit.PROJECT_KEY w))
                (PostCommit.BRANCH_NAME w) Hline (branch_no_nul w)) as Hiff.
  assert (Hkey : PostCommit.JIRA_KEY w
                 = capture (grep_oE (key_ere (PostCommit.PROJECT_KEY w))
                              (echo_stdout (PostCommit.BRANCH_NAME w)))).
  { unfold PostCommit.JIRA_KEY, PostCommit.grep_key. now rewrite Hplain. }
  rewrite <- Hkey in Hiff. rewrite post_commit_requests.
  destruct (PostCommit.ineligible w) eqn:Hel; cbn [orb].
  - split; [|now left]. split; [discriminate|]. now intros [? _].
  - destruct (PostCommit.JIRA_KEY w) as [|c key] eqn:Ek; cbn [is_empty].
    + split; [|now left]. split; [discriminate|].
      intros [_ H]. apply Hiff in H. contradiction.
    + split; [|now right]. split; [|reflexivity].
      intros _. split; [reflexivity|]. apply Hiff. discriminate.
Qed.

Lemma post_commit_delivers_iff_token_witness :
  requests (trace (PostCommit.script fix_branch)) = [PostCommit.delivery fix_branch] /\
  PostCommit.ineligible two_keys = false.
Proof.
  destruct (post_commit_delivers_iff_token fix_branch eq_refl eq_refl) as [H _].
  destruct (post_commit_delivers_iff_token two_keys eq_refl eq_refl) as [H' _].
  split.
  - apply (proj2 H). split; [reflexivity|].
    exists (lit "feature/"), (lit "SCRUM-25"), (lit "-fix").
    split; [reflexivity|]. exists (lit "25"). repeat split. discriminate.
  - exact (proj1 (proj1 H' eq_refl)).
Defined.

(** X7. On a branch name of one line, [git-hook.sh] sends its request
    exactly when the branch name holds a token of uppercase letters, a
    dash and digits somewhere: neither the environment nor a merge or
    rebase under way has a say. *)
Theorem git_hook_delivers_iff_token (w : World) :
  one_line (GitHook.BRANCH_NAME w) = true ->
  (requests (trace (GitHook.script w)) = [GitHook.delivery w] <->
   exists pre t post,
     GitHook.BRANCH_NAME w = pre ++ t ++ post /\ any_key_token t) /\
  (requests (trace (GitHook.script w)) = [] \/
   requests (trace (GitHook.script w)) = [GitHook.delivery w]).
Proof.
  intros Hline.
  pose proof (key_nonempty_iff_token any_key_ere any_key_token
                matches_any_key_ere any_key_token_nonempty any_key_token_digit
                (GitHook.BRANCH_NAME w) Hline (branch_no_nul w)) as Hiff.
  change (capture (grep_oE any_key_ere (echo_stdout (GitHook.BRANCH_NAME w))))
    with (GitHook.JIRA_KEY w) in Hiff.
  rewrite git_hook_requests.
  destruct (GitHook.JIRA_KEY w) as [|c key] eqn:Ek; cbn [is_empty].
  - split; [|now left]. split; [discriminate|].
    intros H. apply Hiff in H. contradiction.
  - split; [|now right]. split; [|reflexivity].
    intros _. apply Hiff. discriminate.
Qed.

Lemma git_hook_delivers_iff_token_witness :
  requests (trace (GitHook.script merging)) = [GitHook.delivery merging] /\
  exists pre t post,
    GitHook.BRANCH_NAME another_project = pre ++ t ++ post /\ any_key_token t.
Proof.
  destruct (git_hook_delivers_iff_token merging eq_refl) as [H _].
  destruct (git_hook_delivers_iff_token another_project eq_refl) as [H' _].
  split.
  - apply (proj2 H).
    exists (lit "feature/"), (lit "SCRUM-25"), [].
    split; [reflexivity|]. exists (lit "SCRUM"). repeat split; [discriminate|].
    exists (lit "25"). repeat split. discriminate.
  - exact (proj1 H' eq_refl).
Defined.

(** X8. Whatever the hooks hold as the key, each of its lines is a token
    that stands in the branch name: a token [KEY-DIGITS] in
    [post-commit-hook.sh] (for a project key without operators), a token
    of uppercase letters, dash and digits in [git-hook.sh]. *)
Theorem key_lines_are_tokens (w : World) (m : str) :
  one_line (PostCommit.BRANCH_NAME w) = true ->
  (plain_key (PostCommit.PROJECT_KEY w) = true ->
   In m (lines (PostCommit.JIRA_KEY w)) ->
   key_token (PostCommit.PROJECT_KEY w) m /\
   exists pre post, PostCommit.BRANCH_NAME w = pre ++ m ++ post) /\
  (In m (lines (GitHook.JIRA_KEY w)) ->
   any_key_token m /\
   exists pre post, GitHook.BRANCH_NAME w = pre ++ m ++ post).
Proof.
  intros Hline. split.
  - intros Hplain. unfold PostCommit.JIRA_KEY, PostCommit.grep_key.
    rewrite Hplain, (key_lines _ _ Hline (branch_no_nul w)).
    destruct (echo_option (PostCommit.BRANCH_NAME w)); [contradiction|].
    intros Hin. apply only_matching_sound in Hin. destruct Hin as [Hm Hocc].
    split; [now apply matches_key_ere|exact Hocc].
  - unfold GitHook.JIRA_KEY.
    change (GitHook.BRANCH_NAME w) with (PostCommit.BRANCH_NAME w).
    rewrite (key_lines _ _ Hline (branch_no_nul w)).
    destruct (echo_option (PostCommit.BRANCH_NAME w)); [contradiction|].
    intros Hin. apply only_matching_sound in Hin. destruct Hin as [Hm Hocc].
    split; [now apply matches_any_key_ere|exact Hocc].
Qed.

Lemma key_lines_are_tokens_witness :
  key_token (lit "SCRUM") (lit "SCRUM-7") /\ any_key_token (lit "SCRUM-12").
Proof.
  destruct (key_lines_are_tokens two_keys (lit "SCRUM-7") eq_refl) as [H _].
  destruct (key_lines_are_tokens two_keys (lit "SCRUM-12") eq_refl) as [_ H'].
  split.
  - exact (proj1 (H eq_refl (or_intror (or_introl eq_refl)))).
  - exact (proj1 (H' (or_introl eq_refl))).
Defined.

(** X9. The first line of the key of [post-commit-hook.sh] is the leftmost
    token of the branch name, with all its digits, and the lines after it
    are the matches of what follows that token: the search does not look
    back. *)
Theorem first_line_is_leftmost (w : World) (pre ds post : str) :
  plain_key (PostCommit.PROJECT_KEY w) = true ->
  one_line (PostCommit.BRANCH_NAME w) = true ->
  PostCommit.BRANCH_NAME w
  = pre ++ (PostCommit.PROJECT_KEY w ++ "-"%char :: ds) ++ post ->
  ds <> [] -> forallb is_digit ds = true -> no_digit_ahead post ->
  (forall pre' t' post',
     PostCommit.BRANCH_NAME w = pre' ++ t' ++ post' ->
     key_token (PostCommit.PROJECT_KEY w) t' -> length pre <= length pre') ->
  lines (PostCommit.JIRA_KEY w)
  = (PostCommit.PROJECT_KEY w ++ "-"%char :: ds)
    :: only_matching (key_ere (PostCommit.PROJECT_KEY w)) post 0.
Proof.
  intros Hplain Hline Eb Hne Hds Hahead Hleft.
  set (k := PostCommit.PROJECT_KEY w) in *.
  unfold PostCommit.JIRA_KEY, PostCommit.grep_key. fold k.
  rewrite Hplain, (key_lines _ _ Hline (branch_no_nul w)).
  assert (Hd : existsb is_digit (PostCommit.BRANCH_NAME w) = true).
  { rewrite Eb, !existsb_app. destruct ds as [|d ds]; [contradiction|].
    simpl in Hds. apply andb_true_iff in Hds. destruct Hds as [Hd _].
    simpl. rewrite Hd. rewrite !orb_true_r. reflexivity. }
  destruct (echo_option (PostCommit.BRANCH_NAME w)) eqn:Eo.
  { apply echo_option_no_digit in Eo. congruence. }
  rewrite Eb, only_matching_clean_prefix.
  - apply only_matching_here.
    + intros E. apply app_eq_nil in E. destruct E; discriminate.
    + now apply key_ere_longest.
  - lia.
  - intros i n Hi Hin. rewrite <- Eb in Hin.
    apply (occurrence_of_end (key_ere k) (key_token k) (matches_key_ere k)) in Hin.
    destruct Hin as (Hb & Ht & _ & Hlen).
    specialize (Hleft _ _ _ Hb Ht). rewrite (Hlen ltac:(lia)) in Hleft. lia.
Qed.

Lemma first_line_is_leftmost_witness :
  lines (PostCommit.JIRA_KEY two_keys)
  = lit "SCRUM-12" :: only_matching (key_ere (lit "SCRUM")) (lit "-follows-SCRUM-7") 0.
Proof.
  apply (first_line_is_leftmost two_keys (lit "feature/") (lit "12")
           (lit "-follows-SCRUM-7")); try reflexivity.
  - discriminate.
  - intros pre' t' post' E Ht.
    apply (matches_within_bounds (key_ere (lit "SCRUM")) (key_token (lit "SCRUM"))
             (matches_key_ere (lit "SCRUM")) (key_token_nonempty (lit "SCRUM"))
             (lit "feature/SCRUM-12-follows-SCRUM-7") 8 32 eq_refl
             pre' t' post' E Ht).
Defined.

(** ** The installer *)

Section InstallerFacts.

Variable h : Setup.Host.

(** The four ways the installer can go. *)
Lemma setup_runs :
  let header := Setup.Say (lit "Setting up Git hooks for Jira integration...") in
  (Setup.is_dir h (lit ".git") = false /\
   Setup.commands (Setup.script h) = [] /\
   Setup.exit_code (Setup.script h) = 1 /\
   length (Setup.said (Setup.script h)) = 2)
  \/
  (Setup.is_dir h (lit ".git") = true /\
   Setup.status h Setup.hooks_dir <> 0 /\
   Setup.script h = ([header; Setup.Run Setup.hooks_dir],
                     Exit (Setup.status h Setup.hooks_dir)))
  \/
  (Setup.is_dir h (lit ".git") = true /\
   Setup.status h Setup.hooks_dir = 0 /\
   Setup.status h Setup.copy_hook <> 0 /\
   Setup.script h = ([header; Setup.Run Setup.hooks_dir; Setup.Run Setup.copy_hook],
                     Exit (Setup.status h Setup.copy_hook)))
  \/
  (Setup.is_dir h (lit ".git") = true /\
   Setup.status h Setup.hooks_dir = 0 /\
   Setup.status h Setup.copy_hook = 0 /\
   Setup.status h Setup.make_executable <> 0 /\
   Setup.script h = ([header; Setup.Run Setup.hooks_dir; Setup.Run Setup.copy_hook;
                      Setup.Run Setup.make_executable],
                     Exit (Setup.status h Setup.make_executable)))
  \/
  (Setup.is_dir h (lit ".git") = true /\
   Setup.status h Setup.hooks_dir = 0 /\
   Setup.status h Setup.copy_hook = 0 /\
   Setup.status h Setup.make_executable = 0 /\
   Setup.commands (Setup.script h)
   = [Setup.hooks_dir; Setup.copy_hook; Setup.make_executable] /\
   Setup.exit_code (Setup.script h) = 0 /\
   nth 1 (Setup.said (Setup.script h)) [] = lit "✓ Git hook installed successfully!").
Proof.
  intros header. unfold Setup.script, Setup.run.
  destruct (Setup.is_dir h (lit ".git")) eqn:Hd; [|left; repeat split].
  right.
  destruct (Setup.status h Setup.hooks_dir =? 0) eqn:E1.
  2:{ left. apply Nat.eqb_neq in E1. repeat split; auto. }
  right.
  destruct (Setup.status h Setup.copy_hook =? 0) eqn:E2.
  2:{ left. apply Nat.eqb_eq in E1. apply Nat.eqb_neq in E2. repeat split; auto. }
  right.
  destruct (Setup.status h Setup.make_executable =? 0) eqn:E3.
  2:{ left. apply Nat.eqb_eq in E1, E2. apply Nat.eqb_neq in E3.
      repeat split; auto. }
  right. apply Nat.eqb_eq in E1, E2, E3. repeat split; auto.
Qed.

End InstallerFacts.



(** X11. [setup-git-hooks.sh] touches nothing outside a repository: when
    [.git] is not a directory it runs no command, writes its error and
    ends with status 1.  In a repository it always runs [mkdir -p]; it
    runs [cp] next exactly when [mkdir -p] succeeded, and [chmod] after
    that exactly when [cp] succeeded too; it runs nothing else.  It stops
    at the first command that fails: the failing command is the last thing
    it does and its status becomes the exit status. *)
Theorem setup_stops_at_first_failure (h : Setup.Host) :
  (Setup.is_dir h (lit ".git") = false ->
   Setup.commands (Setup.script h) = [] /\
   Setup.exit_code (Setup.script h) = 1 /\
   Setup.said (Setup.script h) =
   [ lit "Setting up Git hooks for Jira integration...";
     lit "Error: Not in a git repository. Please run this script from the root of your git repository." ]) /\
  (Setup.is_dir h (lit ".git") = true ->
   Setup.commands (Setup.script h)
   = Setup.hooks_dir
       :: (if Setup.status h Setup.hooks_dir =? 0
           then Setup.copy_hook
                  :: (if Setup.status h Setup.copy_hook =? 0
                      then [Setup.make_executable]
                      else [])
           else [])) /\
  (forall c,
     In c (Setup.commands (Setup.script h)) -> Setup.status h c <> 0 ->
     Setup.exit_code (Setup.script h) = Setup.status h c /\
     last (Setup.actions (Setup.script h)) (Setup.Say []) = Setup.Run c).
Proof.
  split; [|split].
  - intros Hd. unfold Setup.script. rewrite Hd. repeat split.
  - intros Hd. destruct (setup_runs h)
      as [(Hd' & _)
         |[(_ & H1 & E)
          |[(_ & H1 & H2 & E)
           |[(_ & H1 & H2 & H3 & E)
            |(_ & H1 & H2 & H3 & Hc & _)]]]].
    + congruence.
    + apply Nat.eqb_neq in H1. rewrite E, H1. reflexivity.
    + apply Nat.eqb_neq in H2. rewrite E, H1, H2. reflexivity.
    + rewrite E, H1, H2. reflexivity.
    + rewrite Hc, H1, H2. reflexivity.
  - intros c. destruct (setup_runs h)
      as [(_ & Hc & _)
         |[(_ & H1 & E)
          |[(_ & H1 & H2 & E)
           |[(_ & H1 & H2 & H3 & E)
            |(_ & H1 & H2 & H3 & Hc & _)]]]].
    + rewrite Hc. intros [].
    + rewrite E. cbn. intros [<-|[]] _. now split.
    + rewrite E. cbn. intros [<-|[<-|[]]] Hf; [contradiction|]. now split.
    + rewrite E. cbn. intros [<-|[<-|[<-|[]]]] Hf; try contradiction. now split.
    + rewrite Hc. intros [<-|[<-|[<-|[]]]] Hf; contradiction.
Qed.

Lemma setup_stops_at_first_failure_witness :
  Setup.commands (Setup.script (Setup.host false 0 0 0)) = [] /\
  Setup.commands (Setup.script (Setup.host true 0 1 0))
  = [Setup.hooks_dir; Setup.copy_hook] /\
  Setup.commands (Setup.script (Setup.host true 2 0 0)) = [Setup.hooks_dir] /\
  Setup.exit_code (Setup.script (Setup.host true 0 1 0)) = 1.
Proof.
  destruct (setup_stops_at_first_failure (Setup.host false 0 0 0)) as [Hno _].
  destruct (setup_stops_at_first_failure (Setup.host true 0 1 0))
    as (_ & Hcp & Hf).
  destruct (setup_stops_at_first_failure (Setup.host true 2 0 0))
    as (_ & Hmk & _).
  split; [|split; [|split]].
  - exact (proj1 (Hno eq_refl)).
  - exact (Hcp eq_refl).
  - exact (Hmk eq_refl).
  - refine (proj1 (Hf Setup.copy_hook (or_intror (or_introl eq_refl)) _)).
    discriminate.
Defined.

(** ** The API layer and the Jira page *)

Section ApiFacts.

(** The callback of the list calls throws nothing and gives an array. *)
Lemma array_or_items_is_array (data : Js.value) :
  exists items, Js.array_or_items data = Js.Return (Js.Array items).
Proof.
  unfold Js.array_or_items.
  destruct data as [| |b|x|s|items|fields]; cbn [Js.isArray Js.truthy].
  - now exists [].
  - now exists [].
  - destruct b; cbn; now exists [].
  - destruct (Js.number_truthy x); cbn; now exists [].
  - destruct (negb (is_empty s)); cbn; now exists [].
  - now exists items.
  - cbn [Js.field Js.try_].
    destruct (Js.lookup fields (lit "items")) as [| |b|x|s|items|fs];
      cbn [Js.isArray]; eauto.
Qed.

Lemma array_or_items_array (items : list Js.value) :
  Js.array_or_items (Js.Array items) = Js.Return (Js.Array items).
Proof. reflexivity. Qed.

Lemma array_or_items_object (fields : list (str * Js.value)) (items : list Js.value) :
  Js.lookup fields (lit "items") = Js.Array items ->
  Js.array_or_items (Js.Object fields) = Js.Return (Js.Array items).
Proof.
  intros H. unfold Js.array_or_items.
  cbn [Js.isArray Js.truthy Js.field Js.try_]. now rewrite H.
Qed.

Lemma array_or_items_other (data : Js.value) :
  Js.isArray data = false ->
  (forall fields, data = Js.Object fields ->
                  Js.isArray (Js.lookup fields (lit "items")) = false) ->
  Js.array_or_items data = Js.Return (Js.Array []).
Proof.
  intros Ha Ho. unfold Js.array_or_items. rewrite Ha.
  destruct data as [| |b|x|s|items|fields]; cbn [Js.truthy].
  - reflexivity.
  - reflexivity.
  - now destruct b.
  - now destruct (Js.number_truthy x).
  - now destruct (negb (is_empty s)).
  - discriminate Ha.
  - cbn [Js.field Js.try_]. now rewrite (Ho fields eq_refl).
Qed.

(** The parameters [createTicket] sends for a payload that is an object. *)
Lemma create_ticket_call_object (fields : list (str * Js.value)) :
  JiraAPI.createTicket_call (Js.Object fields)
  = Js.Return
      (Js.post (lit "/jira/tickets") Js.Null
         (Js.Object
            [ (lit "title", Js.lookup fields (lit "title"));
              (lit "description",
               Js.nullish (Js.lookup fields (lit "description")) (Js.String []));
              (lit "assignee", Js.lookup fields (lit "assignee"));
              (lit "project_key",
               Js.nullish (Js.lookup fields (lit "project_key"))
                          (Js.String (lit "SCRUM")));
              (lit "labels", Js.lookup fields (lit "labels"));
              (lit "story_points", Js.lookup fields (lit "story_points"));
              (lit "priority", Js.lookup fields (lit "priority"));
              (lit "ticket_type", Js.lookup fields (lit "ticket_type")) ])).
Proof. reflexivity. Qed.

End ApiFacts.

(** X12. The two list calls of [GitAPI], [dbCommits] on [/git/commits]
    and [dbPullRequests] on [/git/pull-requests], never reject and give
    the same shape to what the server answers: the data of the response
    when it is an array; its [items] when the data is an object whose
    [items] is an array; the empty array for any other data; and the
    empty array when the request fails. *)
Theorem git_lists_never_reject (server : Js.Server) (params : Js.value) :
  let shaped (answer result : Js.settled) :=
    (forall items,
       answer = Js.Fulfilled (Js.Array items) ->
       result = Js.Fulfilled (Js.Array items)) /\
    (forall fields items,
       answer = Js.Fulfilled (Js.Object fields) ->
       Js.lookup fields (lit "items") = Js.Array items ->
       result = Js.Fulfilled (Js.Array items)) /\
    (forall data,
       answer = Js.Fulfilled data ->
       Js.isArray data = false ->
       (forall fields, data = Js.Object fields ->
                       Js.isArray (Js.lookup fields (lit "items")) = false) ->
       result = Js.Fulfilled (Js.Array [])) /\
    (forall reason,
       answer = Js.Rejected reason -> result = Js.Fulfilled (Js.Array [])) in
  shaped (server (Js.get (lit "/git/commits") params))
         (GitAPI.dbCommits server params) /\
  shaped (server (Js.get (lit "/git/pull-requests") params))
         (GitAPI.dbPullRequests server params).
Proof.
  intros shaped. unfold shaped, GitAPI.dbCommits, GitAPI.dbPullRequests.
  split; (split; [|split; [|split]]).
  - intros items ->. reflexivity.
  - intros fields items -> Hitems. unfold Js.catch_, Js.then_.
    now rewrite (array_or_items_object fields items Hitems).
  - intros data -> Ha Ho. unfold Js.catch_, Js.then_.
    now rewrite (array_or_items_other data Ha Ho).
  - intros reason ->. reflexivity.
  - intros items ->. reflexivity.
  - intros fields items -> Hitems. unfold Js.catch_, Js.then_.
    now rewrite (array_or_items_object fields items Hitems).
  - intros data -> Ha Ho. unfold Js.catch_, Js.then_.
    now rewrite (array_or_items_other data Ha Ho).
  - intros reason ->. reflexivity.
Qed.

Lemma git_lists_never_reject_witness :
  GitAPI.dbCommits (fun _ => Js.Rejected Js.Null) Js.Undefined
  = Js.Fulfilled (Js.Array []) /\
  GitAPI.dbCommits
    (fun _ => Js.Fulfilled (Js.Object [(lit "items", Js.Array [Js.Null])]))
    Js.Undefined
  = Js.Fulfilled (Js.Array [Js.Null]) /\
  GitAPI.dbPullRequests (fun _ => Js.Fulfilled (Js.Array [Js.Null])) Js.Undefined
  = Js.Fulfilled (Js.Array [Js.Null]) /\
  GitAPI.dbPullRequests
    (fun _ => Js.Fulfilled (Js.Object [(lit "total", Js.String (lit "3"))]))
    Js.Undefined
  = Js.Fulfilled (Js.Array []) /\
  GitAPI.dbPullRequests (fun _ => Js.Fulfilled Js.Null) Js.Undefined
  = Js.Fulfilled (Js.Array []).
Proof.
  split; [|split; [|split; [|split]]].
  - destruct (git_lists_never_reject (fun _ => Js.Rejected Js.Null) Js.Undefined)
      as [(_ & _ & _ & H) _].
    exact (H Js.Null eq_refl).
  - destruct (git_lists_never_reject
                (fun _ => Js.Fulfilled (Js.Object [(lit "items", Js.Array [Js.Null])]))
                Js.Undefined) as [(_ & H & _) _].
    exact (H _ _ eq_refl eq_refl).
  - destruct (git_lists_never_reject
                (fun _ => Js.Fulfilled (Js.Array [Js.Null])) Js.Undefined)
      as [_ (H & _)].
    exact (H _ eq_refl).
  - destruct (git_lists_never_reject
                (fun _ => Js.Fulfilled (Js.Object [(lit "total", Js.String (lit "3"))]))
                Js.Undefined) as [_ (_ & _ & H & _)].
    apply (H _ eq_refl eq_refl). intros fields [= <-]. reflexivity.
  - destruct (git_lists_never_reject (fun _ => Js.Fulfilled Js.Null) Js.Undefined)
      as [_ (_ & _ & H & _)].
    apply (H _ eq_refl eq_refl). intros fields E. discriminate E.
Defined.

(** X13. [JiraAPI.listTickets], on [/jira/tickets], gives a response the
    shape the other list calls give it: the data when it is an array, its
    [items] when the data is an object whose [items] is an array, the
    empty array for any other data; so a fulfilled call always carries an
    array.  But it has no fallback: when the request fails, the call is
    rejected with the same reason. *)
Theorem list_tickets_passes_failure_on (server : Js.Server) (params : Js.value) :
  let answer := server (Js.get (lit "/jira/tickets") params) in
  let result := JiraAPI.listTickets server params in
  (forall reason, answer = Js.Rejected reason -> result = Js.Rejected reason) /\
  (forall items,
     answer = Js.Fulfilled (Js.Array items) ->
     result = Js.Fulfilled (Js.Array items)) /\
  (forall fields items,
     answer = Js.Fulfilled (Js.Object fields) ->
     Js.lookup fields (lit "items") = Js.Array items ->
     result = Js.Fulfilled (Js.Array items)) /\
  (forall data,
     answer = Js.Fulfilled data ->
     Js.isArray data = false ->
     (forall fields, data = Js.Object fields ->
                     Js.isArray (Js.lookup fields (lit "items")) = false) ->
     result = Js.Fulfilled (Js.Array [])) /\
  (forall v, result = Js.Fulfilled v -> exists items, v = Js.Array items).
Proof.
  intros answer result. unfold answer, result, JiraAPI.listTickets.
  split; [|split; [|split; [|split]]].
  - intros reason ->. reflexivity.
  - intros items ->. reflexivity.
  - intros fields items -> Hitems. unfold Js.then_.
    now rewrite (array_or_items_object fields items Hitems).
  - intros data -> Ha Ho. unfold Js.then_.
    now rewrite (array_or_items_other data Ha Ho).
  - intros v.
    destruct (server (Js.get (lit "/jira/tickets") params)) as [data|e];
      unfold Js.then_; [|discriminate].
    destruct (array_or_items_is_array data) as [items ->].
    intros [= <-]. now exists items.
Qed.

Lemma list_tickets_passes_failure_on_witness :
  JiraAPI.listTickets (fun _ => Js.Rejected (Js.String (lit "Network Error")))
                      Js.Undefined
  = Js.Rejected (Js.String (lit "Network Error")) /\
  JiraAPI.listTickets
    (fun _ => Js.Fulfilled (Js.Object [(lit "items", Js.Array [Js.Null])]))
    Js.Undefined
  = Js.Fulfilled (Js.Array [Js.Null]) /\
  JiraAPI.listTickets (fun _ => Js.Fulfilled (Js.String (lit "busy"))) Js.Undefined
  = Js.Fulfilled (Js.Array []).
Proof.
  split; [|split].
  - destruct (list_tickets_passes_failure_on
                (fun _ => Js.Rejected (Js.String (lit "Network Error")))
                Js.Undefined) as [H _].
    exact (H _ eq_refl).
  - destruct (list_tickets_passes_failure_on
                (fun _ => Js.Fulfilled (Js.Object [(lit "items", Js.Array [Js.Null])]))
                Js.Undefined) as (_ & _ & H & _).
    exact (H _ _ eq_refl eq_refl).
  - destruct (list_tickets_passes_failure_on
                (fun _ => Js.Fulfilled (Js.String (lit "busy"))) Js.Undefined)
      as (_ & _ & _ & H & _).
    apply (H _ eq_refl eq_refl). intros fields E. discriminate E.
Defined.

(** X14. [JiraAPI.createTicket], given a payload that is an object, as
    its type asks, makes one call, a POST to [/jira/tickets] with no body,
    and sends the project key of the payload: [SCRUM] only when the
    payload has none ([undefined] or [null]), and any other value,
    the empty text too, as it is.  The Jira page always passes the text
    of its project field, so what it sends is that text, empty or not.
    The call never rejects: it is fulfilled with the data of the response,
    and with [null] when the request fails. *)
Theorem create_ticket_project_key (fields : list (str * Js.value)) :
  exists c,
    JiraAPI.createTicket_call (Js.Object fields) = Js.Return c /\
    Js.verb c = lit "POST" /\ Js.path c = lit "/jira/tickets" /\
    Js.body c = Js.Null /\
    (Js.lookup fields (lit "project_key") = Js.Undefined
     \/ Js.lookup fields (lit "project_key") = Js.Null ->
     Js.field (Js.params c) (lit "project_key")
     = Js.Return (Js.String (lit "SCRUM"))) /\
    (Js.lookup fields (lit "project_key") <> Js.Undefined ->
     Js.lookup fields (lit "project_key") <> Js.Null ->
     Js.field (Js.params c) (lit "project_key")
     = Js.Return (Js.lookup fields (lit "project_key"))) /\
    (forall title description projectKey priority ticketType,
       fields = [ (lit "title", Js.String title);
                  (lit "description", Js.String description);
                  (lit "project_key", Js.String projectKey);
                  (lit "priority", Js.String priority);
                  (lit "ticket_type", Js.String ticketType) ] ->
       JiraPage.create_payload title description projectKey priority ticketType
       = Js.Object fields /\
       Js.field (Js.params c) (lit "project_key")
       = Js.Return (Js.String projectKey)) /\
    (forall server data,
       server c = Js.Fulfilled data ->
       JiraAPI.createTicket server (Js.Object fields)
       = Js.Return (Js.Fulfilled data)) /\
    (forall server reason,
       server c = Js.Rejected reason ->
       JiraAPI.createTicket server (Js.Object fields)
       = Js.Return (Js.Fulfilled Js.Null)).
Proof.
  eexists. split; [apply create_ticket_call_object|].
  split; [reflexivity|]. split; [reflexivity|]. split; [reflexivity|].
  split; [|split; [|split; [|split]]].
  - intros H.
    change (Js.field _ _)
      with (Js.Return (Js.nullish (Js.lookup fields (lit "project_key"))
                                  (Js.String (lit "SCRUM")))).
    now destruct H as [-> | ->].
  - intros Hu Hn.
    change (Js.field _ _)
      with (Js.Return (Js.nullish (Js.lookup fields (lit "project_key"))
                                  (Js.String (lit "SCRUM")))).
    destruct (Js.lookup fields (lit "project_key"));
      try reflexivity; contradiction.
  - intros title description projectKey priority ticketType ->.
    split; reflexivity.
  - intros server data H. unfold JiraAPI.createTicket.
    rewrite create_ticket_call_object. cbn [Js.try_]. now rewrite H.
  - intros server reason H. unfold JiraAPI.createTicket.
    rewrite create_ticket_call_object. cbn [Js.try_]. now rewrite H.
Qed.

Lemma create_ticket_project_key_witness :
  (exists c,
     JiraAPI.createTicket_call
       (Js.Object [(lit "title", Js.String (lit "New Task"))]) = Js.Return c /\
     Js.field (Js.params c) (lit "project_key")
     = Js.Return (Js.String (lit "SCRUM"))) /\
  (exists c,
     JiraAPI.createTicket_call
       (Js.Object [(lit "project_key", Js.String [])]) = Js.Return c /\
     Js.field (Js.params c) (lit "project_key") = Js.Return (Js.String [])).
Proof.
  split.
  - destruct (create_ticket_project_key
                [(lit "title", Js.String (lit "New Task"))])
      as (c & Hc & _ & _ & _ & H & _).
    exists c. split; [exact Hc|]. exact (H (or_introl eq_refl)).
  - destruct (create_ticket_project_key [(lit "project_key", Js.String [])])
      as (c & Hc & _ & _ & _ & _ & H & _).
    exists c. split; [exact Hc|].
    apply H; discriminate.
Defined.

(** A payload that is [null] or [undefined], which the type of
    [createTicket] excludes, makes it throw before any call. *)
Example create_ticket_without_payload (server : Js.Server) :
  JiraAPI.createTicket server Js.Null = Js.Throw Js.type_error /\
  JiraAPI.createTicket server Js.Undefined = Js.Throw Js.type_error.
Proof. split; reflexivity. Qed.

(** X15. The filters of the Jira page survive the address bar.  From the
    parameters that Apply Filters puts in the address, a page starts with
    the same project, assignee and status filters, whatever they are.
    The limit is written only when it is neither 25 nor 0 or NaN, and then
    comes back as what the language reads in the text it wrote; in every
    other case the page starts with 25. *)
Theorem filters_survive_the_address
    (lib : JiraPage.Conversions)
    (filterProject filterAssignee filterStatus : str)
    (appliedFilters : JiraPage.filters) :
  let applied :=
    JiraPage.applyFilters lib filterProject filterAssignee filterStatus
                          appliedFilters in
  let restored := JiraPage.initialFilters lib (snd applied) in
  let l := JiraPage.limit appliedFilters in
  JiraPage.project_key restored = filterProject /\
  JiraPage.assignee restored = filterAssignee /\
  JiraPage.status restored = filterStatus /\
  JiraPage.limit (fst applied) = l /\
  (Js.number_truthy l = true -> PrimFloat.eqb l Js.default_limit = false ->
   JiraPage.to_text lib l <> [] ->
   JiraPage.limit restored = JiraPage.to_number lib (JiraPage.to_text lib l)) /\
  (Js.number_truthy l = false \/ PrimFloat.eqb l Js.default_limit = true ->
   JiraPage.limit restored = Js.default_limit).
Proof.
  intros applied restored l. unfold restored, applied, JiraPage.applyFilters.
  cbn [snd fst JiraPage.project_key JiraPage.assignee JiraPage.status
       JiraPage.limit]. fold l.
  unfold JiraPage.initialFilters, JiraPage.entry.
  cbn [JiraPage.project_key JiraPage.assignee JiraPage.status JiraPage.limit].
  repeat split.
  - destruct filterProject, filterAssignee, filterStatus,
      (Js.number_truthy l && negb (PrimFloat.eqb l Js.default_limit));
      reflexivity.
  - destruct filterProject, filterAssignee, filterStatus,
      (Js.number_truthy l && negb (PrimFloat.eqb l Js.default_limit));
      reflexivity.
  - destruct filterProject, filterAssignee, filterStatus,
      (Js.number_truthy l && negb (PrimFloat.eqb l Js.default_limit));
      reflexivity.
  - intros Ht He Hne. rewrite Ht, He. cbn [andb negb].
    destruct (JiraPage.to_text lib l) as [|c s] eqn:E; [contradiction|].
    destruct filterProject, filterAssignee, filterStatus; reflexivity.
  - intros H.
    assert (E : Js.number_truthy l && negb (PrimFloat.eqb l Js.default_limit)
                = false).
    { destruct H as [-> | ->]; [reflexivity|]. cbn. apply andb_false_r. }
    rewrite E.
    destruct filterProject, filterAssignee, filterStatus; reflexivity.
Qed.

Lemma filters_survive_the_address_witness :
  JiraPage.initialFilters JiraPage.fifty_only
    (snd (JiraPage.applyFilters JiraPage.fifty_only (lit "SCRUM") [] (lit "Done")
            {| JiraPage.project_key := []; JiraPage.assignee := [];
               JiraPage.status := []; JiraPage.limit := Js.fifty |}))
  = {| JiraPage.project_key := lit "SCRUM"; JiraPage.assignee := [];
       JiraPage.status := lit "Done"; JiraPage.limit := Js.fifty |}.
Proof.
  destruct (filters_survive_the_address JiraPage.fifty_only (lit "SCRUM") []
              (lit "Done")
              {| JiraPage.project_key := []; JiraPage.assignee := [];
                 JiraPage.status := []; JiraPage.limit := Js.fifty |})
    as (H1 & H2 & H3 & _ & H4 & _).
  specialize (H4 eq_refl eq_refl ltac:(discriminate)).
  destruct (JiraPage.initialFilters _ _) as [p a s l]. cbn in H1, H2, H3, H4.
  now subst.
Defined.
